(** * Perikan: a shallow embedding of the dispatch core

  The development follows the TypeScript sources of the repository:
  - [SnowFlake]  : src/snowflake.ts, the id generator;
  - [Perikan]    : src/index.ts, the facade;
  - [Zod]        : the fragment of the schema library the sources call;
  - [Event]      : src/event.ts, event definitions and envelope creation;
  - [Bus]        : src/bus.ts, the local event bus;
  - [Flow]       : src/matcher.ts, the middleware pipeline;
  - [LRUCache]   : src/cache.ts, the bounded cache with expiry;
  - [Parse]      : src/event.ts, parsing through the cache of results;
  - [Commit]     : src/matcher.ts, binding a pipeline to the bus.

  JavaScript values are a first-order datatype, objects are finite maps
  from property names to values, and every effect (the wall clock, the
  mutable fields of the generator, the registry of the bus) is threaded
  through an explicit [World]. *)

From stdpp Require Import gmap strings list fin_maps.
From Stdlib Require Import ZArith Lia.

Set Warnings "-register-all".
Set Default Proof Using "Type".

(* ===================================================================== *)
(** * JavaScript values *)
(* ===================================================================== *)

Module JS.

(** Numbers are restricted to the integers: the sources only compute with
    millisecond timestamps, worker ids and counters.  [VInstance r] is a
    reference to a class instance owned by the host (the facade); it is an
    object for [typeof] and the model exposes none of its properties. *)
Inductive JSValue :=
| VUndefined
| VNull
| VBool (b : bool)
| VNumber (n : Z)
| VBigInt (n : Z)
| VString (s : string)
| VArray (items : list JSValue)
| VObject (props : gmap string JSValue)
| VInstance (r : nat).

Definition typeof (v : JSValue) : string :=
  match v with
  | VUndefined => "undefined"
  | VNull => "object"
  | VBool _ => "boolean"
  | VNumber _ => "number"
  | VBigInt _ => "bigint"
  | VString _ => "string"
  | VArray _ | VObject _ | VInstance _ => "object"
  end.

(** ToBoolean, the test behind [if (v)], [v && ...] and [!v]. *)
Definition truthy (v : JSValue) : bool :=
  match v with
  | VUndefined | VNull => false
  | VBool b => b
  | VNumber n | VBigInt n => negb (n =? 0)%Z
  | VString s => negb (bool_decide (s = ""))
  | VArray _ | VObject _ | VInstance _ => true
  end.

(** [v === undefined] *)
Definition is_undefined (v : JSValue) : bool :=
  match v with VUndefined => true | _ => false end.

Definition nullish (v : JSValue) : bool :=
  match v with VUndefined | VNull => true | _ => false end.

(** [a ?? b] *)
Definition coalesce (a b : JSValue) : JSValue := if nullish a then b else a.

(** [v.k] for a property name [k] that no prototype defines. *)
Definition get_prop (v : JSValue) (k : string) : JSValue :=
  match v with
  | VObject props => default VUndefined (props !! k)
  | _ => VUndefined
  end.

(** [v?.k] *)
Definition opt_chain (v : JSValue) (k : string) : JSValue :=
  if nullish v then VUndefined else get_prop v k.

(** [k in v] for an object [v] and a name [k] that no prototype defines. *)
Definition js_in (k : string) (v : JSValue) : bool :=
  match v with
  | VObject props => bool_decide (is_Some (props !! k))
  | _ => false
  end.

(** [Object.keys(v).length] for a value whose [typeof] is "object". *)
Definition keys_length (v : JSValue) : nat :=
  match v with
  | VArray items => length items
  | VObject props => size props
  | _ => 0
  end.

(** [Array.isArray(v)] *)
Definition isArray (v : JSValue) : bool :=
  match v with VArray _ => true | _ => false end.

(** [Object.assign(target, src)]: the own properties of [src] are written
    over those of [target]. *)
Definition object_assign (target : gmap string JSValue) (src : JSValue)
  : gmap string JSValue :=
  match src with
  | VObject props => props ∪ target
  | _ => target
  end.

(** The iteration behind the spread [...v] inside an array literal; [None]
    stands for the TypeError raised on a value that is not iterable. *)
Definition spread (v : JSValue) : option (list JSValue) :=
  match v with
  | VArray items => Some items
  | VString s => Some ((λ c, VString (String c "")) <$> String.list_ascii_of_string s)
  | _ => None
  end.

(** What a [throw] statement or a promise rejection carries. *)
Inductive Exn :=
| ZodError (candidate : JSValue)   (* the schema library rejected [candidate] *)
| TypeError                        (* raised by the engine itself *)
| Error_ (message : string)        (* [new Error(message)] *)
| Raised (v : JSValue).            (* any other thrown value *)

End JS.
Export JS.

(* ===================================================================== *)
(** * The id generator (src/snowflake.ts) *)
(* ===================================================================== *)

Module SnowFlake.
Local Open Scope Z_scope.

Record SnowFlake := mk {
  workerId : Z;
  lastMs : Z;
  sequence : Z
}.

Definition epoch : Z := 1704067200000.
Definition workerIdBits : Z := 10.
Definition sequenceBits : Z := 12.
Definition maxSequence : Z := Z.shiftl 1 sequenceBits - 1.

(** [new SnowFlake(workerId)] *)
Definition new (workerId : Z) : SnowFlake :=
  {| workerId := workerId; lastMs := 0; sequence := 0 |}.

(** The wall clock is an oracle: the list of the values that the coming
    calls of [Date.now()] return, in order. *)
Definition Clock := list Z.

(** [while (Date.now() <= this.lastMs) {}]: readings are consumed up to
    and including the first one past [last]; [None] when the oracle holds
    no such reading, that is, the loop does not come back. *)
Fixpoint busy_wait (last : Z) (clock : Clock) : option Clock :=
  match clock with
  | [] => None
  | t :: rest => if t <=? last then busy_wait last rest else Some rest
  end.

(** The id is assembled from [now], the reading taken on entry. *)
Definition assemble (now : Z) (sf : SnowFlake) : Z :=
  let timestampPart := Z.shiftl (now - epoch) (workerIdBits + sequenceBits) in
  let workerPart := Z.shiftl (workerId sf) sequenceBits in
  Z.lor (Z.lor timestampPart workerPart) (sequence sf).

Definition nextId (sf : SnowFlake) (clock : Clock)
  : option (Z * SnowFlake * Clock) :=
  match clock with
  | [] => None
  | now :: clock1 =>
      if bool_decide (now = lastMs sf) then
        let sf1 := {| workerId := workerId sf; lastMs := lastMs sf;
                      sequence := Z.land (sequence sf + 1) maxSequence |} in
        if bool_decide (sequence sf1 = 0) then
          clock2 ← busy_wait (lastMs sf1) clock1;
          Some (assemble now sf1, sf1, clock2)
        else Some (assemble now sf1, sf1, clock1)
      else
        let sf1 := {| workerId := workerId sf; lastMs := now; sequence := 0 |} in
        Some (assemble now sf1, sf1, clock1)
  end.

(** [n] consecutive calls on one generator; the ids in the order returned. *)
Fixpoint take_ids (n : nat) (sf : SnowFlake) (clock : Clock)
  : option (list Z * SnowFlake * Clock) :=
  match n with
  | O => Some ([], sf, clock)
  | S n' =>
      '(id, sf1, clock1) ← nextId sf clock;
      '(ids, sf2, clock2) ← take_ids n' sf1 clock1;
      Some (id :: ids, sf2, clock2)
  end.

(** Order checks on the ids returned and on the readings of the clock. *)
Fixpoint strictly_increasing (l : list Z) : bool :=
  match l with
  | a :: (b :: _) as rest => (a <? b) && strictly_increasing rest
  | _ => true
  end.

Fixpoint nondecreasing (l : list Z) : bool :=
  match l with
  | a :: (b :: _) as rest => (a <=? b) && nondecreasing rest
  | _ => true
  end.

End SnowFlake.

(* ===================================================================== *)
(** * Promises and the world *)
(* ===================================================================== *)

Module Async.
Local Open Scope Z_scope.

(** The fate of a promise: the instant (in milliseconds after the call
    that created it) at which it settles and how, or never. *)
Inductive Fate (A : Type) :=
| Fulfills (t : Z) (a : A)
| Rejects (t : Z) (e : Exn)
| Never.
Arguments Fulfills {A} t a.
Arguments Rejects {A} t e.
Arguments Never {A}.

(** What calling a user function yields: a plain value, a promise, or a
    synchronous throw. *)
Inductive CallResult :=
| Returned (v : JSValue)
| ReturnedPromise (p : Fate JSValue)
| Threw (e : Exn).

(** An entry of the array [Promise.allSettled] fulfils with. *)
Inductive Settled (A : Type) :=
| SFulfilled (a : A)
| SRejected (e : Exn).
Arguments SFulfilled {A} a.
Arguments SRejected {A} e.

(** [Promise.resolve(x)] for the result [x] of a call that returned. *)
Definition promise_resolve (r : CallResult) : Fate JSValue :=
  match r with
  | Returned v => Fulfills 0 v
  | ReturnedPromise p => p
  | Threw e => Rejects 0 e
  end.

(** [Promise.reject(e)] *)
Definition promise_reject {A} (e : Exn) : Fate A := Rejects 0 e.

(** [new Promise((_, reject) => setTimeout(() => reject(e), ms))] *)
Definition reject_after {A} (ms : Z) (e : Exn) : Fate A := Rejects ms e.

Definition settles_at {A} (p : Fate A) : option Z :=
  match p with
  | Fulfills t _ | Rejects t _ => Some t
  | Never => None
  end.

(** [Promise.race([p, q])]: the promise that settles first decides; when
    both settle in the same millisecond the one listed first does. *)
Definition race {A} (p q : Fate A) : Fate A :=
  match settles_at p, settles_at q with
  | Some tp, Some tq => if tp <=? tq then p else q
  | Some _, None => p
  | None, _ => q
  end.

Definition outcome {A} (p : Fate A) : option (Settled A) :=
  match p with
  | Fulfills _ a => Some (SFulfilled a)
  | Rejects _ e => Some (SRejected e)
  | Never => None
  end.

(** [Promise.allSettled(ps)]: fulfils, once every member has settled, with
    their outcomes in the order of [ps]; it stays pending while a member
    does, and it has no way to reject. *)
Definition allSettled {A} (ps : list (Fate A)) : Fate (list (Settled A)) :=
  match mapM settles_at ps, mapM outcome ps with
  | Some ts, Some os => Fulfills (foldr Z.max 0 ts) os
  | _, _ => Never
  end.

(** How a piece of sequential code ends. [Hangs] covers an awaited promise
    that never settles and a wait on the clock that never comes back. *)
Inductive Completion (A : Type) :=
| Normal (a : A)
| Thrown (e : Exn)
| Hangs.
Arguments Normal {A} a.
Arguments Thrown {A} e.
Arguments Hangs {A}.

(** [await x] inside an async function, with the time it takes left out. *)
Definition await_call (r : CallResult) : Completion JSValue :=
  match promise_resolve r with
  | Fulfills _ v => Normal v
  | Rejects _ e => Thrown e
  | Never => Hangs
  end.

(** The promise an async function hands back for a body that ended with
    [c] at instant [t]. *)
Definition async_result {A} (t : Z) (c : Completion A) : Fate A :=
  match c with
  | Normal a => Fulfills t a
  | Thrown e => Rejects t e
  | Hangs => Never
  end.

End Async.
Export Async.

(* ===================================================================== *)
(** * The facade and the world (src/index.ts) *)
(* ===================================================================== *)

Module Perikan.

(** The facade: [options.workerId] and the generator [_sf] it owns. *)
Record Perikan := mk {
  workerId : Z;
  _sf : SnowFlake.SnowFlake
}.

(** [new Perikan({ workerId })] *)
Definition new (workerId : Z) : Perikan :=
  {| workerId := workerId; _sf := SnowFlake.new workerId |}.

End Perikan.

Module World.

(** References into the heap: a [Set] object of the bus registry, and a
    handler function (functions are compared by identity). *)
Definition SetRef := nat.
Definition HandlerRef := nat.

(** Everything the modelled code can read or mutate: the clock oracle, the
    facade, the registry [handlersMap] of the bus with the [Set] objects
    it points to, and the variables user callbacks close over. *)
Record World := mk {
  clock : SnowFlake.Clock;
  perikan : Perikan.Perikan;
  handlersMap : gmap string SetRef;
  sets : gmap SetRef (list HandlerRef);
  vars : gmap string JSValue
}.

Definition Eff (A : Type) : Type := World → Completion A * World.

Definition ret {A} (a : A) : Eff A := λ w, (Normal a, w).
Definition throw {A} (e : Exn) : Eff A := λ w, (Thrown e, w).
Definition bind {A B} (m : Eff A) (k : A → Eff B) : Eff B :=
  λ w, match m w with
       | (Normal a, w1) => k a w1
       | (Thrown e, w1) => (Thrown e, w1)
       | (Hangs, w1) => (Hangs, w1)
       end.

Definition set_clock (c : SnowFlake.Clock) (w : World) : World :=
  mk c (perikan w) (handlersMap w) (sets w) (vars w).
Definition set_perikan (p : Perikan.Perikan) (w : World) : World :=
  mk (clock w) p (handlersMap w) (sets w) (vars w).
Definition set_handlersMap (m : gmap string SetRef) (w : World) : World :=
  mk (clock w) (perikan w) m (sets w) (vars w).
Definition set_sets (s : gmap SetRef (list HandlerRef)) (w : World) : World :=
  mk (clock w) (perikan w) (handlersMap w) s (vars w).

(** [Date.now()]: the next reading of the oracle; [Hangs] when the oracle
    holds none, so that a run is defined only as far as its clock is. *)
Definition date_now : Eff Z :=
  λ w, match clock w with
       | [] => (Hangs, w)
       | t :: rest => (Normal t, set_clock rest w)
       end.

(** [perikan.nextId()], which forwards to [this._sf.nextId()]. *)
Definition nextId : Eff Z :=
  λ w, match SnowFlake.nextId (Perikan._sf (perikan w)) (clock w) with
       | Some (id, sf1, clock1) =>
           (Normal id,
            set_clock clock1
              (set_perikan (Perikan.mk (Perikan.workerId (perikan w)) sf1) w))
       | None => (Hangs, w)
       end.

End World.
Export World.

Notation "'let!' x ':=' m 'in' k" := (World.bind m (λ x, k))
(at level 10, x name, m at level 100, k at level 200, only parsing).

(* ===================================================================== *)
(** * The schema library, as far as the sources use it *)
(* ===================================================================== *)

Module Zod.

(** The schema library is an external collaborator.  A schema is rendered
    by the [success] flag of its [safeParse]; the constructors below are
    the ones src/event.ts calls, with their documented acceptance. *)
Definition ZodType := JSValue → bool.

Definition z_bigint : ZodType := λ v, match v with VBigInt _ => true | _ => false end.
Definition z_number : ZodType := λ v, match v with VNumber _ => true | _ => false end.
Definition z_string : ZodType := λ v, match v with VString _ => true | _ => false end.
Definition z_any : ZodType := λ _, true.
Definition z_literal (s : string) : ZodType :=
  λ v, match v with VString s' => bool_decide (s' = s) | _ => false end.
Definition z_array (item : ZodType) : ZodType :=
  λ v, match v with VArray items => forallb item items | _ => false end.

(** [z.object(shape)]: a plain object each of whose shape keys holds a
    value the key's schema accepts ([undefined] for an absent key); keys
    outside the shape are ignored. *)
Definition z_object (shape : gmap string ZodType) : ZodType :=
  λ v, match v with
       | VObject props =>
           forallb (λ '(k, s), s (default VUndefined (props !! k)))
                   (map_to_list shape)
       | _ => false
       end.

(** [base.extend(ext)] on shapes: the keys of [ext] replace those of [base]. *)
Definition extend (base ext : gmap string ZodType) : gmap string ZodType :=
  ext ∪ base.

End Zod.
Export Zod.

(* ===================================================================== *)
(** * Event definitions (src/event.ts) *)
(* ===================================================================== *)

Module Event.

(** [isEmpty]: the helper that decides whether a payload counts as absent. *)
Definition isEmpty (val : JSValue) : bool :=
  match val with
  | VUndefined => true
  | VNull => true
  | _ => bool_decide (typeof val = "object") && bool_decide (keys_length val = 0)
  end.

(** [PerikanEventDefaultOptions]; the [cache] option only concerns
    [safeParse] and is left out. *)
Record PerikanEventDefaultOptions := mkDefaults {
  defaultTags : option (list string);
  defaultPayload : option JSValue
}.

Record PerikanEvent := mk {
  topic : string;
  payloadSchema : ZodType;
  opts : option PerikanEventDefaultOptions
}.

(** The shape behind [PerikanEventDataSchema]. *)
Definition PerikanEventDataSchema : gmap string ZodType :=
  {[ "id" := z_bigint;
     "time" := z_number;
     "topic" := z_string;
     "from" := z_number;
     "to" := z_array z_number;
     "tags" := z_array z_string;
     "payload" := z_any ]}.

(** [this.eventSchema], built by the constructor. *)
Definition eventSchema (ev : PerikanEvent) : ZodType :=
  z_object (extend PerikanEventDataSchema
              {[ "topic" := z_literal (topic ev);
                 "payload" := payloadSchema ev ]}).

Definition validate (ev : PerikanEvent) (data : JSValue) : bool :=
  eventSchema ev data.

Definition validatePayload (ev : PerikanEvent) (data : JSValue) : bool :=
  payloadSchema ev data.

(** [parsePayload]: throws the library's error on a rejected candidate.
    Callers drop the parsed value, so none is returned. *)
Definition parsePayload (ev : PerikanEvent) (data : JSValue) : Eff unit :=
  if payloadSchema ev data then ret tt else throw (ZodError data).

(** [this.opts?.defaultPayload] and [this.opts?.defaultTags] *)
Definition opts_defaultPayload (ev : PerikanEvent) : JSValue :=
  default VUndefined (opts ev ≫= defaultPayload).
Definition opts_defaultTags (ev : PerikanEvent) : JSValue :=
  default VUndefined ((λ tags, VArray (VString <$> tags)) <$> (opts ev ≫= defaultTags)).

(** The test that makes the sole argument an options object. *)
Definition looks_like_options (payloadOrOpts : JSValue) : bool :=
  truthy payloadOrOpts
  && bool_decide (typeof payloadOrOpts = "object")
  && (js_in "payload" payloadOrOpts || js_in "tags" payloadOrOpts
      || js_in "from" payloadOrOpts || js_in "to" payloadOrOpts).

(** [_resolveArgs]; an argument that was not supplied is [VUndefined]. *)
Definition _resolveArgs (ev : PerikanEvent) (payloadOrOpts opts : JSValue)
  : JSValue * JSValue :=
  let '(payload, options) :=
    if negb (is_undefined opts) then (payloadOrOpts, opts)
    else if looks_like_options payloadOrOpts
         then (get_prop payloadOrOpts "payload", payloadOrOpts)
         else (payloadOrOpts, VUndefined) in
  let payload :=
    if isEmpty payload
    then coalesce (opts_defaultPayload ev) (VObject ∅)
    else payload in
  (payload, options).

(** [_buildEventData]; the fields are evaluated in the order written. *)
Definition _buildEventData (ev : PerikanEvent) (payload options : JSValue)
  : Eff JSValue :=
  let! id := nextId in
  let! time := date_now in
  λ w,
    let from := coalesce (opt_chain options "from")
                         (VNumber (Perikan.workerId (perikan w))) in
    let to := coalesce (opt_chain options "to") (VArray []) in
    match spread (coalesce (opts_defaultTags ev) (VArray [])),
          spread (coalesce (opt_chain options "tags") (VArray [])) with
    | Some dtags, Some ctags =>
        ret (VObject {[ "id" := VBigInt id;
                        "time" := VNumber time;
                        "topic" := VString (topic ev);
                        "from" := from;
                        "to" := to;
                        "tags" := VArray (dtags ++ ctags);
                        "payload" := payload ]}) w
    | _, _ => throw TypeError w
    end.

Definition create (ev : PerikanEvent) (payloadOrOpts opts : JSValue)
  : Eff JSValue :=
  let '(payload, options) := _resolveArgs ev payloadOrOpts opts in
  let! _ := parsePayload ev payload in
  _buildEventData ev payload options.

(** [createAsync]: the same steps behind a promise; the schemas modelled
    here settle at once. *)
Definition createAsync (ev : PerikanEvent) (payloadOrOpts opts : JSValue)
  : World → Fate JSValue * World :=
  λ w, let '(c, w1) := create ev payloadOrOpts opts w in (async_result 0 c, w1).

Definition unsafeCreate (ev : PerikanEvent) (payloadOrOpts opts : JSValue)
  : Eff JSValue :=
  let '(payload, options) := _resolveArgs ev payloadOrOpts opts in
  _buildEventData ev payload options.

End Event.

(* ===================================================================== *)
(** * The local bus (src/bus.ts) *)
(* ===================================================================== *)

Module Bus.
Local Open Scope Z_scope.

Record PerikanInternalBusOptions := mkOptions {
  opt_workerId : option Z;
  opt_maxTimeout : option Z
}.

(** The two fields the constructor assigns and nothing writes afterwards;
    the third field, [handlersMap], is mutable and lives in the [World]. *)
Record PerikanLocalBus := mk {
  maxTimeout : Z;
  workerId : Z
}.

Definition new (options : PerikanInternalBusOptions) : PerikanLocalBus :=
  let timeout := default 0 (opt_maxTimeout options) in
  {| maxTimeout := if 0 <? timeout then timeout else 0;
     workerId := default 0 (opt_workerId options) |}.

(** [Set.prototype.add] and [Set.prototype.delete] on the insertion-ordered
    content of a [Set]. *)
Definition set_add (h : HandlerRef) (hs : list HandlerRef) : list HandlerRef :=
  if bool_decide (h ∈ hs) then hs else hs ++ [h].
Definition set_delete (h : HandlerRef) (hs : list HandlerRef) : list HandlerRef :=
  filter (λ h', h' ≠ h) hs.

(** The closure [on] returns: it captures the [Set] it added to, the
    handler and the topic. *)
Record Unsubscribe := mkUnsubscribe {
  captured_handlers : SetRef;
  captured_handler : HandlerRef;
  captured_topic : string
}.

(** [on(event, handler)] *)
Definition on (ev : Event.PerikanEvent) (handler : HandlerRef) (w : World)
  : Unsubscribe * World :=
  let '(r, w1) :=
    match handlersMap w !! Event.topic ev with
    | Some r => (r, w)
    | None =>
        let r := fresh (dom (sets w)) in
        (r, set_handlersMap (<[Event.topic ev := r]> (handlersMap w))
              (set_sets (<[r := []]> (sets w)) w))
    end in
  let handlers := default [] (sets w1 !! r) in
  (mkUnsubscribe r handler (Event.topic ev),
   set_sets (<[r := set_add handler handlers]> (sets w1)) w1).

(** Calling the closure [on] returned. *)
Definition unsubscribe (u : Unsubscribe) (w : World) : World :=
  match sets w !! captured_handlers u with
  | Some handlers =>
      let handlers1 := set_delete (captured_handler u) handlers in
      let w1 := set_sets (<[captured_handlers u := handlers1]> (sets w)) w in
      if bool_decide (length handlers1 = 0%nat)
      then set_handlersMap (delete (captured_topic u) (handlersMap w1)) w1
      else w1
  | None => w
  end.

(** [eventData.to.length === 0 || eventData.to.includes(workerId)].
    Validation has made [to] an array of numbers by the time this runs; on
    any other value the model gives [None], for the TypeError that reading
    [length] of [undefined] raises. *)
Definition accepts (to : JSValue) (worker : Z) : option bool :=
  match to with
  | VArray items =>
      Some (bool_decide (length items = 0%nat)
            || existsb (λ v, match v with
                             | VNumber n => bool_decide (n = worker)
                             | _ => false
                             end) items)
  | _ => None
  end.

(** The handlers currently registered under a topic, in insertion order. *)
Definition registered (w : World) (topic : string) : list HandlerRef :=
  match handlersMap w !! topic with
  | Some r => default [] (sets w !! r)
  | None => []
  end.

Section WithHandlers.

(** The code of the handler functions: what a call does to the world
    and what it yields. *)
Variable handler_code : HandlerRef → JSValue → World → CallResult * World.

(** [try { return Promise.resolve(handler(eventData)) }
     catch (err) { return Promise.reject(err) }], given what the call did. *)
Definition capture (r : CallResult) : Fate JSValue :=
  match r with
  | Threw err => promise_reject err
  | _ => promise_resolve r
  end.

(** [Array.from(handlers).map(handler => ...)]: every handler of the
    snapshot is called in turn. The log keeps, for each call, the handler
    and the promise the bus holds for it. *)
Fixpoint call_handlers (handlers : list HandlerRef) (eventData : JSValue)
    (w : World) : list (HandlerRef * Fate JSValue) * World :=
  match handlers with
  | [] => ([], w)
  | handler :: rest =>
      let '(r, w1) := handler_code handler eventData w in
      let '(tasks, w2) := call_handlers rest eventData w1 in
      ((handler, capture r) :: tasks, w2)
  end.

(** The promise the bus waits on for one task. *)
Definition with_timeout (bus : PerikanLocalBus) (task : Fate JSValue)
  : Fate JSValue :=
  if 0 <? maxTimeout bus
  then race task (reject_after (maxTimeout bus) (Error_ "Timeout"))
  else task.

(** [emit(event, eventData)]: the promise it returns, the log of the
    handler calls it made, and the world it leaves. *)
Definition emit (bus : PerikanLocalBus) (ev : Event.PerikanEvent)
    (eventData : JSValue) (w : World)
  : Fate unit * list (HandlerRef * Fate JSValue) * World :=
  if negb (Event.validate ev eventData) then (Fulfills 0 tt, [], w)
  else
    match accepts (get_prop eventData "to") (workerId bus) with
    | None => (Rejects 0 TypeError, [], w)
    | Some false => (Fulfills 0 tt, [], w)
    | Some true =>
        match handlersMap w !! Event.topic ev with
        | Some r =>
            let handlers := default [] (sets w !! r) in
            let '(log, w1) := call_handlers handlers eventData w in
            let waited := with_timeout bus <$> (snd <$> log) in
            (match allSettled waited with
             | Fulfills t _ => Fulfills t tt
             | Rejects t e => Rejects t e
             | Never => Never
             end, log, w1)
        | None => (Fulfills 0 tt, [], w)
        end
    end.

End WithHandlers.

(** The states of the registry that calls of [on] and of the closures it
    returned can produce, together with the closures handed out so far. *)
Inductive reachable : World → list Unsubscribe → Prop :=
| reach_new (w : World) :
    handlersMap w = ∅ → reachable w []
| reach_on (w : World) (us : list Unsubscribe) ev handler :
    reachable w us →
    reachable (snd (on ev handler w)) (fst (on ev handler w) :: us)
| reach_unsubscribe (w : World) (us : list Unsubscribe) u :
    reachable w us → u ∈ us →
    reachable (unsubscribe u w) us.

End Bus.

(* ===================================================================== *)
(** * The middleware pipeline (src/matcher.ts) *)
(* ===================================================================== *)

Module Flow.

(** The context is one mutable object shared by all steps of a dispatch. *)
Abbreviation FlowContext := (gmap string JSValue).

(** A step is given the context and may change the world; what it adds to
    the context it hands back as its result. *)
Definition PipeFn := FlowContext → World → CallResult * World.
Definition CatchFn := FlowContext → Exn → World → CallResult * World.

Record PerikanFlow := mk {
  events : list Event.PerikanEvent;
  catchFn : option CatchFn;
  pipeFn : list PipeFn
}.

(** [new PerikanFlow(perikan, ...events)] *)
Definition new (events : list Event.PerikanEvent) : PerikanFlow :=
  {| events := events; catchFn := None; pipeFn := [] |}.

(** The facade as it appears inside a context. *)
Definition perikan_ref : JSValue := VInstance 0.

(** [createFlowContext(perikan, eventData)]; reading a property of
    [undefined] or [null] throws. *)
Definition createFlowContext (eventData : JSValue) : Eff FlowContext :=
  let! flowId := nextId in
  if nullish eventData then throw TypeError
  else ret ({[ "flowId" := VBigInt flowId;
               "perikan" := perikan_ref;
               "topic" := get_prop eventData "topic";
               "data" := eventData;
               "payload" := get_prop eventData "payload" ]} : FlowContext).

(** What happened during a dispatch, in order: step [index] was called on
    [ctx], or the error handler was called with [ctx] and [err]. *)
Inductive FlowEvent :=
| StepRan (index : nat) (ctx : FlowContext)
| CatchRan (ctx : FlowContext) (err : Exn).

(** How the [for] loop over the steps ends. *)
Inductive LoopEnd :=
| Finished (ctx : FlowContext)             (* ran out of steps *)
| Stopped (ctx : FlowContext)              (* [break] on a [false] result *)
| Failed (ctx : FlowContext) (err : Exn)   (* control went to [catch (err)] *)
| Stalled.                                 (* an awaited step never settled *)

(** [result === false] *)
Definition is_false (result : JSValue) : bool :=
  match result with VBool false => true | _ => false end.

(** [result && typeof result === "object" && !Array.isArray(result)] *)
Definition is_mergeable (result : JSValue) : bool :=
  truthy result && bool_decide (typeof result = "object") && negb (isArray result).

(** The body of the [try] block, from step number [i] on. *)
Fixpoint run_pipes (fns : list PipeFn) (i : nat) (ctx : FlowContext) (w : World)
  : LoopEnd * list FlowEvent * World :=
  match fns with
  | [] => (Finished ctx, [], w)
  | fn :: rest =>
      let '(r, w1) := fn ctx w in
      match await_call r with
      | Normal result =>
          if is_false result then (Stopped ctx, [StepRan i ctx], w1)
          else
            let ctx1 := if is_mergeable result
                        then object_assign ctx result else ctx in
            let '(e, log, w2) := run_pipes rest (S i) ctx1 w1 in
            (e, StepRan i ctx :: log, w2)
      | Thrown err => (Failed ctx err, [StepRan i ctx], w1)
      | Hangs => (Stalled, [StepRan i ctx], w1)
      end
  end.

(** The handler [build()] returns, applied to [eventData]. The closure
    reads [this.pipeFn] and [this.catchFn] when it runs, so it is a
    function of the flow as it stands at the dispatch. *)
Definition build (flow : PerikanFlow) (eventData : JSValue) (w : World)
  : Completion unit * list FlowEvent * World :=
  match createFlowContext eventData w with
  | (Normal ctx, w1) =>
      match run_pipes (pipeFn flow) 0 ctx w1 with
      | (Finished _, log, w2) | (Stopped _, log, w2) => (Normal tt, log, w2)
      | (Stalled, log, w2) => (Hangs, log, w2)
      | (Failed ctx1 err, log, w2) =>
          match catchFn flow with
          | Some fn =>
              let '(r, w3) := fn ctx1 err w2 in
              (match await_call r with
               | Normal _ => Normal tt
               | Thrown e => Thrown e
               | Hangs => Hangs
               end, log ++ [CatchRan ctx1 err], w3)
          | None => (Normal tt, log, w2)
          end
      end
  | (Thrown e, w1) => (Thrown e, [], w1)
  | (Hangs, w1) => (Hangs, [], w1)
  end.

(** [catch(fn)], [pipe(fn)], [filter(pred)] and [handle(fn)] *)
Definition catch (fn : CatchFn) (flow : PerikanFlow) : PerikanFlow :=
  {| events := events flow; catchFn := Some fn; pipeFn := pipeFn flow |}.

Definition push (fn : PipeFn) (flow : PerikanFlow) : PerikanFlow :=
  {| events := events flow; catchFn := catchFn flow;
     pipeFn := pipeFn flow ++ [fn] |}.

Definition pipe (fn : PipeFn) (flow : PerikanFlow) : PerikanFlow := push fn flow.

Definition filter (pred : PipeFn) (flow : PerikanFlow) : PerikanFlow :=
  push (λ ctx w,
          let '(r, w1) := pred ctx w in
          (ReturnedPromise
             match r with
             | Threw e => Rejects 0 e
             | Returned v => if negb (truthy v) then Fulfills 0 (VBool false)
                             else Fulfills 0 VUndefined
             | ReturnedPromise _ => Fulfills 0 VUndefined
             end, w1)) flow.

Definition handle (fn : PipeFn) (flow : PerikanFlow) : PerikanFlow :=
  push (λ ctx w,
          let '(r, w1) := fn ctx w in
          (ReturnedPromise
             match promise_resolve r with
             | Fulfills t _ => Fulfills t VUndefined
             | Rejects t e => Rejects t e
             | Never => Never
             end, w1)) flow.

(** The indices of the steps a log says were called, in order. *)
Definition steps_run (log : list FlowEvent) : list nat :=
  omap (λ e, match e with StepRan i _ => Some i | CatchRan _ _ => None end) log.

(** The calls of the error handler a log records. *)
Definition catches_run (log : list FlowEvent) : list (FlowContext * Exn) :=
  omap (λ e, match e with CatchRan c err => Some (c, err) | StepRan _ _ => None end) log.

End Flow.

(* ===================================================================== *)
(** * The bounded cache (src/cache.ts) *)
(* ===================================================================== *)

Module LRUCache.
Local Open Scope Z_scope.

Section Cache.
Context {K V : Type} `{EqDecision K}.

(** [key === undefined], for the key type at hand. *)
Variable key_is_undefined : K → bool.
(** [value === undefined], for the value type at hand. *)
Variable value_is_undefined : V → bool.

Record CacheItem := mkItem {
  value : V;
  expiry : option Z
}.

(** The entries of the [Map], in insertion order, with the two fields the
    constructor sets. *)
Record LRUCache := mk {
  cache : list (K * CacheItem);
  capacity : Z;
  ttl : option Z
}.

(** [Map.prototype.get], [has], [delete] and [set] on the entries. *)
Fixpoint map_get (key : K) (m : list (K * CacheItem)) : option CacheItem :=
  match m with
  | [] => None
  | (k, item) :: rest => if decide (k = key) then Some item else map_get key rest
  end.

Definition map_has (key : K) (m : list (K * CacheItem)) : bool :=
  bool_decide (key ∈ m.*1).

Definition map_delete (key : K) (m : list (K * CacheItem)) : list (K * CacheItem) :=
  filter (λ p, p.1 ≠ key) m.

Definition map_set (key : K) (item : CacheItem) (m : list (K * CacheItem))
  : list (K * CacheItem) :=
  if map_has key m
  then (λ p, if decide (p.1 = key) then (key, item) else p) <$> m
  else m ++ [(key, item)].

Definition with_cache (m : list (K * CacheItem)) (c : LRUCache) : LRUCache :=
  {| cache := m; capacity := capacity c; ttl := ttl c |}.

(** [new LRUCache(capacity, ttl)] *)
Definition new (capacity : Z) (ttl : option Z) : Completion LRUCache :=
  if capacity <=? 0 then Thrown (Error_ "Capacity must be greater than 0")
  else Normal {| cache := []; capacity := capacity; ttl := ttl |}.

(** [item.expiry && Date.now() > item.expiry]: the clock is read only for
    an expiry that is set and not zero. [None] when the oracle is empty. *)
Definition expired (item : CacheItem) (clock : SnowFlake.Clock)
  : option (bool * SnowFlake.Clock) :=
  match expiry item with
  | Some e =>
      if bool_decide (e = 0) then Some (false, clock)
      else match clock with
           | [] => None
           | now :: rest => Some (bool_decide (e < now), rest)
           end
  | None => Some (false, clock)
  end.

(** [get(key)]; the result [None] is the [undefined] of a miss. *)
Definition get (key : K) (c : LRUCache) (clock : SnowFlake.Clock)
  : option (option V * LRUCache * SnowFlake.Clock) :=
  match map_get key (cache c) with
  | None => Some (None, c, clock)
  | Some item =>
      '(gone, clock1) ← expired item clock;
      if gone : bool
      then Some (None, with_cache (map_delete key (cache c)) c, clock1)
      else Some (Some (value item),
                 with_cache (map_set key item (map_delete key (cache c))) c,
                 clock1)
  end.

(** [set(key, value, ttl)]; [ttl_arg = None] is an argument left out. *)
Definition set (key : K) (v : V) (ttl_arg : option Z) (c : LRUCache)
    (clock : SnowFlake.Clock) : option (LRUCache * SnowFlake.Clock) :=
  let m1 :=
    if map_has key (cache c) then map_delete key (cache c)
    else if capacity c <=? Z.of_nat (length (cache c)) then
      match head (cache c) with
      | Some (firstKey, _) =>
          if key_is_undefined firstKey then cache c
          else map_delete firstKey (cache c)
      | None => cache c
      end
    else cache c in
  let effectiveTTL := match ttl_arg with Some t => Some t | None => ttl c end in
  '(expiry, clock1) ←
    match effectiveTTL with
    | Some t =>
        if bool_decide (t = 0) then Some (None, clock)
        else match clock with
             | [] => None
             | now :: rest => Some (Some (now + t), rest)
             end
    | None => Some (None, clock)
    end;
  Some (with_cache (map_set key (mkItem v expiry) m1) c, clock1).

(** [has(key)] *)
Definition has (key : K) (c : LRUCache) (clock : SnowFlake.Clock)
  : option (bool * LRUCache * SnowFlake.Clock) :=
  match map_get key (cache c) with
  | None => Some (false, c, clock)
  | Some item =>
      '(gone, clock1) ← expired item clock;
      if gone : bool
      then Some (false, with_cache (map_delete key (cache c)) c, clock1)
      else Some (true, c, clock1)
  end.

(** [delete(key)] and [clear()] *)
Definition delete (key : K) (c : LRUCache) : bool * LRUCache :=
  (map_has key (cache c), with_cache (map_delete key (cache c)) c).

Definition clear (c : LRUCache) : LRUCache := with_cache [] c.

(** The loop of the [size] getter over the entries: the expired ones are
    dropped, the others kept in order. *)
Fixpoint sweep (m : list (K * CacheItem)) (clock : SnowFlake.Clock)
  : option (list (K * CacheItem) * SnowFlake.Clock) :=
  match m with
  | [] => Some ([], clock)
  | (k, item) :: rest =>
      '(gone, clock1) ← expired item clock;
      '(kept, clock2) ← sweep rest clock1;
      Some (if gone : bool then kept else (k, item) :: kept, clock2)
  end.

(** [size] *)
Definition size (c : LRUCache) (clock : SnowFlake.Clock)
  : option (Z * LRUCache * SnowFlake.Clock) :=
  '(kept, clock1) ← sweep (cache c) clock;
  Some (Z.of_nat (length kept), with_cache kept c, clock1).

(** [getOrSet(key, factory, ttl)], awaited. The factory is user code: it
    may read the clock and use the cache before it yields a value. *)
Definition getOrSet (key : K)
    (factory : LRUCache → SnowFlake.Clock → Completion V * LRUCache * SnowFlake.Clock)
    (ttl_arg : option Z) (c : LRUCache) (clock : SnowFlake.Clock)
  : Completion V * LRUCache * SnowFlake.Clock :=
  match get key c clock with
  | None => (Hangs, c, clock)
  | Some (cached, c1, clock1) =>
      match cached ≫= (λ v, if value_is_undefined v then None else Some v) with
      | Some v => (Normal v, c1, clock1)
      | None =>
          match factory c1 clock1 with
          | (Normal v, c2, clock2) =>
              match set key v ttl_arg c2 clock2 with
              | Some (c3, clock3) => (Normal v, c3, clock3)
              | None => (Hangs, c2, clock2)
              end
          | other => other
          end
      end
  end.

(** The calls a user of the cache can make, and a run of them in order. *)
Inductive Op :=
| OpGet (key : K)
| OpSet (key : K) (v : V) (ttl_arg : option Z)
| OpHas (key : K)
| OpDelete (key : K)
| OpClear
| OpSize.

Definition run_op (op : Op) (c : LRUCache) (clock : SnowFlake.Clock)
  : option (LRUCache * SnowFlake.Clock) :=
  match op with
  | OpGet key => '(_, c1, clock1) ← get key c clock; Some (c1, clock1)
  | OpSet key v ttl_arg => set key v ttl_arg c clock
  | OpHas key => '(_, c1, clock1) ← has key c clock; Some (c1, clock1)
  | OpDelete key => Some ((delete key c).2, clock)
  | OpClear => Some (clear c, clock)
  | OpSize => '(_, c1, clock1) ← size c clock; Some (c1, clock1)
  end.

Fixpoint run_ops (ops : list Op) (c : LRUCache) (clock : SnowFlake.Clock)
  : option (LRUCache * SnowFlake.Clock) :=
  match ops with
  | [] => Some (c, clock)
  | op :: rest => '(c1, clock1) ← run_op op c clock; run_ops rest c1 clock1
  end.

(** The keys an operation stores. *)
Definition stored_key (op : Op) : option K :=
  match op with OpSet key _ _ => Some key | _ => None end.

End Cache.

Arguments CacheItem : clear implicits.
Arguments LRUCache : clear implicits.
Arguments Op : clear implicits.

End LRUCache.

(* ===================================================================== *)
(** * Parsing with the result cache (src/event.ts) *)
(* ===================================================================== *)

Module Parse.
Local Open Scope Z_scope.

(** The [cache] option of [PerikanEventDefaultOptions]. *)
Record CacheOptions := mkCacheOptions {
  enabled : bool;
  opt_capacity : option Z;
  opt_ttl : option Z
}.

(** The object [safeParse] of the schema library returns. *)
Inductive SafeParseResult :=
| ParseSuccess (data : JSValue)
| ParseFailure (error : Exn).

Abbreviation ParseCache := (LRUCache.LRUCache Z SafeParseResult).

(** Ids are bigints: no key of the parse cache is [undefined]. *)
Definition id_is_undefined : Z → bool := λ _, false.

(** The part of the constructor that builds [_parseCache]. *)
Definition make_cache (o : option CacheOptions) : Completion (option ParseCache) :=
  match o with
  | Some co =>
      if enabled co then
        match LRUCache.new (default 1000 (opt_capacity co))
                           (Some (default (1000 * 60 * 5) (opt_ttl co))) with
        | Normal c => Normal (Some c)
        | Thrown e => Thrown e
        | Hangs => Hangs
        end
      else Normal None
  | None => Normal None
  end.

(** [_getCacheKey] *)
Definition _getCacheKey (data : JSValue) : option Z :=
  if truthy data && bool_decide (typeof data = "object") then
    match get_prop data "id" with
    | VBigInt id => Some id
    | _ => None
    end
  else None.

Section Library.

(** What the schema library hands back as [data] for a candidate that the
    event schema accepts. *)
Variable parsed : Event.PerikanEvent → JSValue → JSValue.

(** [this.eventSchema.safeParse(data)] *)
Definition schema_safeParse (ev : Event.PerikanEvent) (data : JSValue)
  : SafeParseResult :=
  if Event.eventSchema ev data then ParseSuccess (parsed ev data)
  else ParseFailure (ZodError data).

(** [safeParse(data)] on a definition whose [_parseCache] is [cache]; a
    cached result is an object, hence truthy. *)
Definition safeParse (ev : Event.PerikanEvent) (cache : option ParseCache)
    (data : JSValue) (clock : SnowFlake.Clock)
  : option (SafeParseResult * option ParseCache * SnowFlake.Clock) :=
  match _getCacheKey data, cache with
  | Some key, Some c =>
      '(cached, c1, clock1) ← LRUCache.get key c clock;
      match cached with
      | Some result => Some (result, Some c1, clock1)
      | None =>
          let result := schema_safeParse ev data in
          '(c2, clock2) ← LRUCache.set id_is_undefined key result None c1 clock1;
          Some (result, Some c2, clock2)
      end
  | _, _ => Some (schema_safeParse ev data, cache, clock)
  end.

(** [parse(data)] *)
Definition parse (ev : Event.PerikanEvent) (cache : option ParseCache)
    (data : JSValue) (clock : SnowFlake.Clock)
  : Completion JSValue * option ParseCache * SnowFlake.Clock :=
  match safeParse ev cache data clock with
  | Some (ParseSuccess d, cache1, clock1) => (Normal d, cache1, clock1)
  | Some (ParseFailure e, cache1, clock1) => (Thrown e, cache1, clock1)
  | None => (Hangs, cache, clock)
  end.

(** [parseMany(datas)]: [datas.map(data => this.parse(data))]. *)
Fixpoint parseMany (ev : Event.PerikanEvent) (cache : option ParseCache)
    (datas : list JSValue) (clock : SnowFlake.Clock)
  : Completion (list JSValue) * option ParseCache * SnowFlake.Clock :=
  match datas with
  | [] => (Normal [], cache, clock)
  | data :: rest =>
      match parse ev cache data clock with
      | (Normal d, cache1, clock1) =>
          match parseMany ev cache1 rest clock1 with
          | (Normal ds, cache2, clock2) => (Normal (d :: ds), cache2, clock2)
          | other => other
          end
      | (Thrown e, cache1, clock1) => (Thrown e, cache1, clock1)
      | (Hangs, cache1, clock1) => (Hangs, cache1, clock1)
      end
  end.

(** [clearCache()] *)
Definition clearCache (cache : option ParseCache) : option ParseCache :=
  LRUCache.clear <$> cache.

End Library.

End Parse.


(* ===================================================================== *)
(** * Committing a pipeline to the bus (src/matcher.ts, src/index.ts) *)
(* ===================================================================== *)

Module Commit.
Import Flow.

(** [perikan.on(event, handler)], which forwards to [this.bus.on]. *)
Definition perikan_on (ev : Event.PerikanEvent) (handler : HandlerRef) (w : World)
  : Bus.Unsubscribe * World :=
  Bus.on ev handler w.

(** [this.events.map((event) => this.perikan.on(event, handler))] *)
Fixpoint subscribe_each (events : list Event.PerikanEvent) (handler : HandlerRef)
    (w : World) : list Bus.Unsubscribe * World :=
  match events with
  | [] => ([], w)
  | ev :: rest =>
      let '(unbind, w1) := perikan_on ev handler w in
      let '(unbinds, w2) := subscribe_each rest handler w1 in
      (unbind :: unbinds, w2)
  end.

(** [commit()]. The handler it subscribes is the function [build()] has
    just made; [handler] is the identity of that new function. What comes
    back is the array [unbinds] the returned closure holds. *)
Definition commit (flow : PerikanFlow) (handler : HandlerRef) (w : World)
  : list Bus.Unsubscribe * World :=
  subscribe_each (events flow) handler w.

(** Calling the closure [commit] returned:
    [unbinds.forEach((unbind) => unbind())]. *)
Definition unbind_all (unbinds : list Bus.Unsubscribe) (w : World) : World :=
  foldl (λ w unbind, Bus.unsubscribe unbind w) w unbinds.

End Commit.

(* ===================================================================== *)
(** * Vocabulary for the statements about events and the registry *)
(* ===================================================================== *)

Module EventSpec.
Import Event.

(** The payload [_resolveArgs] settles on once it has picked a candidate. *)
Definition fallback (ev : PerikanEvent) (candidate : JSValue) : JSValue :=
  if isEmpty candidate
  then match opts ev ≫= defaultPayload with
       | Some d => if nullish d then VObject ∅ else d
       | None => VObject ∅
       end
  else candidate.

(** The option names whose presence turns the sole argument into options. *)
Definition option_keys : list string := ["payload"; "tags"; "from"; "to"].

End EventSpec.

Module RegistrySpec.
Import Bus.

(** What holds of the registry and of the closures handed out. *)
Record registry_inv (w : World) (us : list Unsubscribe) : Prop := mkInv {
  inv_nonempty : ∀ t r, handlersMap w !! t = Some r →
                        ∃ hs, sets w !! r = Some hs ∧ hs ≠ [];
  inv_injective : ∀ t1 t2 r, handlersMap w !! t1 = Some r →
                             handlersMap w !! t2 = Some r → t1 = t2;
  inv_allocated : ∀ u, u ∈ us → is_Some (sets w !! captured_handlers u);
  inv_topic : ∀ u t, u ∈ us → handlersMap w !! t = Some (captured_handlers u) →
                     t = captured_topic u
}.

End RegistrySpec.

(* ===================================================================== *)
(** * The step semantics of a pipeline, as the specification words it *)
(* ===================================================================== *)

Module FlowSpec.
Import Flow.

(** A result that is an object, is not null and is not an array. *)
Definition plain_object (result : JSValue) : Prop :=
  typeof result = "object" ∧ result ≠ VNull ∧ isArray result = false.

(** The own properties of a result that the model can see. *)
Definition own_prop (result : JSValue) (k : string) : option JSValue :=
  match result with
  | VObject props => props !! k
  | _ => None
  end.

(** [merged] is [ctx] with the result shallow-merged into it: the keys of
    the result override the keys of the same name, all others stay. *)
Definition shallow_merge (ctx : FlowContext) (result : JSValue)
    (merged : FlowContext) : Prop :=
  ∀ k, merged !! k = match own_prop result k with
                     | Some v => Some v
                     | None => ctx !! k
                     end.

(** The state machine of one dispatch: steps are taken in order, each
    awaited before the next; a plain object is merged, [false] stops,
    anything else continues with the context as it was, and a throw or a
    rejection ends the run. *)
Inductive spec_run :
  list PipeFn → nat → FlowContext → World →
  LoopEnd → list FlowEvent → World → Prop :=
| spec_finished i ctx w :
    spec_run [] i ctx w (Finished ctx) [] w
| spec_stop fn rest i ctx w r w1 :
    fn ctx w = (r, w1) →
    await_call r = Normal (VBool false) →
    spec_run (fn :: rest) i ctx w (Stopped ctx) [StepRan i ctx] w1
| spec_merge fn rest i ctx w r w1 result merged e log w2 :
    fn ctx w = (r, w1) →
    await_call r = Normal result →
    plain_object result →
    shallow_merge ctx result merged →
    spec_run rest (S i) merged w1 e log w2 →
    spec_run (fn :: rest) i ctx w e (StepRan i ctx :: log) w2
| spec_continue fn rest i ctx w r w1 result e log w2 :
    fn ctx w = (r, w1) →
    await_call r = Normal result →
    result ≠ VBool false →
    ¬ plain_object result →
    spec_run rest (S i) ctx w1 e log w2 →
    spec_run (fn :: rest) i ctx w e (StepRan i ctx :: log) w2
| spec_failed fn rest i ctx w r w1 err :
    fn ctx w = (r, w1) →
    await_call r = Thrown err →
    spec_run (fn :: rest) i ctx w (Failed ctx err) [StepRan i ctx] w1
| spec_stalled fn rest i ctx w r w1 :
    fn ctx w = (r, w1) →
    await_call r = Hangs →
    spec_run (fn :: rest) i ctx w Stalled [StepRan i ctx] w1.

End FlowSpec.

(* ===================================================================== *)
(** * Vocabulary for the statements about the cache, envelopes and closures *)
(* ===================================================================== *)

Module CacheSpec.
Import LRUCache.
Local Open Scope Z_scope.

Section Cache.
Context {K V : Type} `{EqDecision K}.
Variable key_is_undefined : K → bool.

(** The state of a cache that its own operations keep. *)
Definition well_formed (c : LRUCache K V) : Prop :=
  NoDup (cache c).*1
  ∧ Z.of_nat (length (cache c)) ≤ capacity c
  ∧ Forall (λ k, key_is_undefined k = false) (cache c).*1.

(** The entries [set] keeps before it appends the new one. *)
Definition set_keeps (key : K) (c : LRUCache K V) : list (K * CacheItem V) :=
  if map_has key (cache c) then map_delete key (cache c)
  else if capacity c <=? Z.of_nat (length (cache c)) then
    match head (cache c) with
    | Some (firstKey, _) =>
        if key_is_undefined firstKey then cache c
        else map_delete firstKey (cache c)
    | None => cache c
    end
  else cache c.

End Cache.

End CacheSpec.

Module EnvelopeSpec.
Import Event.

(** What the fields [from], [to] and [tags] of a created envelope must be
    for the envelope schema, in terms of the options they come from. *)
Definition options_typed (options : JSValue) : bool :=
  (nullish (opt_chain options "from") || z_number (opt_chain options "from"))
  && (nullish (opt_chain options "to") || z_array z_number (opt_chain options "to"))
  && match spread (coalesce (opt_chain options "tags") (VArray [])) with
     | Some tags => forallb z_string tags
     | None => false
     end.

End EnvelopeSpec.

Module SubscriptionSpec.
Import Bus.

(** A closure is in order when the [Set] it captured is the one registered
    under its topic, or when its topic is not registered and its [Set] is
    empty. *)
Definition in_order (u : Unsubscribe) (w : World) : Prop :=
  handlersMap w !! captured_topic u = Some (captured_handlers u)
  ∨ (handlersMap w !! captured_topic u = None
     ∧ sets w !! captured_handlers u = Some []).

End SubscriptionSpec.


(* ===================================================================== *)
(** * Running the model on the scenarios of the test suite *)
(* ===================================================================== *)

Module Scenarios.
Local Open Scope Z_scope.

(** [definePerikanEvent("test.topic", z.object({ foo: z.string() }))] *)
Definition TestEvent : Event.PerikanEvent :=
  Event.mk "test.topic" (z_object {[ "foo" := z_string ]}) None.

(** The same definition with a default payload. *)
Definition DefaultedEvent : Event.PerikanEvent :=
  Event.mk "test.topic" (z_object {[ "foo" := z_string ]})
    (Some (Event.mkDefaults (Some ["base"])
             (Some (VObject {[ "foo" := VString "dflt" ]})))).

(** A definition whose payload has a field named like an option. *)
Definition TaggedEvent : Event.PerikanEvent :=
  Event.mk "tagged.topic" (z_object {[ "tags" := z_array z_string ]}) None.

(** A world whose clock still holds a few readings, with worker 1. *)
Definition world1 : World :=
  World.mk [1704067200005; 1704067200007; 1704067200008; 1704067200009]
           (Perikan.new 1) ∅ ∅ ∅.

Definition envelope1 : JSValue :=
  VObject {[ "id" := VBigInt 20975616; "time" := VNumber 1704067200007;
             "topic" := VString "test.topic"; "from" := VNumber 1;
             "to" := VArray []; "tags" := VArray [];
             "payload" := VObject {[ "foo" := VString "bar" ]} ]}.

(** The envelope of the bus tests, addressed to the workers [items]. *)
Definition envelope_to (items : list JSValue) : JSValue :=
  VObject {[ "id" := VBigInt 20975616; "time" := VNumber 1704067200007;
             "topic" := VString "test.topic"; "from" := VNumber 1;
             "to" := VArray items; "tags" := VArray [];
             "payload" := VObject {[ "foo" := VString "bar" ]} ]}.


(** [new PerikanLocalBus({ workerId: 1 })] and
    [new PerikanLocalBus({ workerId: 1, maxTimeout: 10 })] *)
Definition bus1 : Bus.PerikanLocalBus := Bus.new (Bus.mkOptions (Some 1) None).
Definition bus10 : Bus.PerikanLocalBus := Bus.new (Bus.mkOptions (Some 1) (Some 10)).

(** Handler 0 throws, handler 1 resolves after 50 ms, the others return. *)
Definition test_handlers (h : HandlerRef) (data : JSValue) (w : World)
  : CallResult * World :=
  match h with
  | 0%nat => (Threw (Error_ "Sync Error"), w)
  | 1%nat => (ReturnedPromise (Fulfills 50 VUndefined), w)
  | _ => (Returned VUndefined, w)
  end.

(** [bus.on(TestEvent, handler0)], then [bus.on(TestEvent, handler1)]. *)
Definition one_subscriber : Bus.Unsubscribe * World := Bus.on TestEvent 0%nat world1.
Definition two_subscribers : Bus.Unsubscribe * World :=
  Bus.on TestEvent 1%nat one_subscriber.2.

(** Handler 0 is unsubscribed, then handler 1 subscribes to the topic. *)
Definition resubscribed : Bus.Unsubscribe * World :=
  Bus.on TestEvent 1%nat (Bus.unsubscribe one_subscriber.1 one_subscriber.2).

(** [definePerikanEvent("test.flow", z.object({ value: z.number() }))] and
    the envelope [TestEvent.create(perikan, { value: 10 })] of the flow tests. *)
Definition ValueEvent : Event.PerikanEvent :=
  Event.mk "test.flow" (z_object {[ "value" := z_number ]}) None.

Definition value10 : JSValue :=
  VObject {[ "id" := VBigInt 20975616; "time" := VNumber 1704067200007;
             "topic" := VString "test.flow"; "from" := VNumber 1;
             "to" := VArray []; "tags" := VArray [];
             "payload" := VObject {[ "value" := VNumber 10 ]} ]}.

(** The steps of the flow tests. *)
Definition step_extra1 : Flow.PipeFn :=
  λ ctx w, (Returned (VObject {[ "extra1" := VString "foo" ]}), w).

Definition step_double : Flow.PipeFn :=
  λ ctx w,
    match ctx !! "extra1", get_prop (default VUndefined (ctx !! "payload")) "value" with
    | Some (VString "foo"), VNumber n =>
        (Returned (VObject {[ "extra2" := VNumber (n * 2) ]}), w)
    | _, _ => (Threw (Error_ "expectation failed"), w)
    end.

Definition step_false : Flow.PipeFn := λ ctx w, (Returned (VBool false), w).

Definition step_throw : Flow.PipeFn :=
  λ ctx w, (Threw (Error_ "test error"), w).

Definition spy : Flow.CatchFn := λ ctx err w, (Returned VUndefined, w).

Definition accumulating_flow : Flow.PerikanFlow :=
  Flow.pipe step_double (Flow.pipe step_extra1 (Flow.new [ValueEvent])).

Definition stopping_flow : Flow.PerikanFlow :=
  Flow.pipe step_double (Flow.pipe step_false (Flow.new [ValueEvent])).

Definition failing_flow : Flow.PerikanFlow :=
  Flow.catch spy
    (Flow.pipe step_double
       (Flow.pipe step_throw (Flow.pipe step_extra1 (Flow.new [ValueEvent])))).

(** The context [createFlowContext] builds for [value10] in [world1]. *)
Definition context10 : gmap string JSValue :=
  {[ "flowId" := VBigInt 20975616;
     "perikan" := Flow.perikan_ref;
     "topic" := VString "test.flow";
     "data" := value10;
     "payload" := VObject {[ "value" := VNumber 10 ]} ]}.

Definition world1_after_id : World :=
  World.mk [1704067200007; 1704067200008; 1704067200009]
           (Perikan.mk 1 (SnowFlake.mk 1 1704067200005 0)) ∅ ∅ ∅.

(** The clock of the failing run: 4097 readings of one millisecond, then
    the next millisecond. *)
Definition stuck_clock : SnowFlake.Clock := replicate 4097 1704067200001 ++ [1704067200002].

End Scenarios.
Import Scenarios.

(* ===================================================================== *)
(** * Further scenarios: the cache, tampered envelopes, committed flows *)
(* ===================================================================== *)

Module Cases.
Local Open Scope Z_scope.

(** A cache of capacity 2 with a default time to live of 100 ms, empty and
    after [set(7, "a")] at the instant 1000. *)
Definition cache100 : LRUCache.LRUCache Z JSValue := LRUCache.mk [] 2 (Some 100).
Definition cache100_a : LRUCache.LRUCache Z JSValue :=
  LRUCache.mk [(7, LRUCache.mkItem (VString "a") (Some 1100))] 2 (Some 100).

(** The parse cache of a definition made with [cache: { enabled: true }]. *)
Definition parse_cache0 : Parse.ParseCache := LRUCache.mk [] 1000 (Some 300000).

(** A schema library that hands the candidate back as the parsed value. *)
Definition parsed_as_is : Event.PerikanEvent → JSValue → JSValue := λ _ data, data.

(** [envelope1] with its payload emptied: the same id, but not valid. *)
Definition tampered_envelope1 : JSValue :=
  VObject {[ "id" := VBigInt 20975616; "time" := VNumber 1704067200007;
             "topic" := VString "test.topic"; "from" := VNumber 1;
             "to" := VArray []; "tags" := VArray [];
             "payload" := VObject ∅ ]}.

(** [TestEvent.create(perikan, { foo: "bar" }, { from: "x" })] in [world1]:
    the envelope and the world it leaves. *)
Definition envelope_from_string : JSValue :=
  VObject {[ "id" := VBigInt 20975616; "time" := VNumber 1704067200007;
             "topic" := VString "test.topic"; "from" := VString "x";
             "to" := VArray []; "tags" := VArray [];
             "payload" := VObject {[ "foo" := VString "bar" ]} ]}.

Definition world1_after_create : World :=
  World.mk [1704067200008; 1704067200009]
           (Perikan.mk 1 (SnowFlake.mk 1 1704067200005 0)) ∅ ∅ ∅.

(** A flow whose error handler throws the error it is given. *)
Definition rethrowing_flow : Flow.PerikanFlow :=
  Flow.catch (λ ctx err w, (Threw err, w))
    (Flow.pipe step_throw (Flow.new [ValueEvent])).

(** A flow bound to the test event, with one step. *)
Definition test_flow : Flow.PerikanFlow :=
  Flow.pipe step_extra1 (Flow.new [TestEvent]).

End Cases.
Import Cases.


Example async_allSettled_mixed :
allSettled [Fulfills 3 VNull; Rejects 7 TypeError;
            race Never (reject_after 10 (Error_ "Timeout"))]
= Fulfills 10 [SFulfilled VNull; SRejected TypeError; SRejected (Error_ "Timeout")].
Proof. reflexivity. Qed.

Example snowflake_three_ids :
SnowFlake.take_ids 3 (SnowFlake.new 1)
  [1704067200001; 1704067200001; 1704067200002]%Z
= Some ([4198400; 4198401; 8392704]%Z, SnowFlake.mk 1 1704067200002 0, []).
Proof. vm_compute. reflexivity. Qed.

Example create_conforming_payload :
fst (Event.create TestEvent (VObject {[ "foo" := VString "bar" ]}) VUndefined world1)
= Normal envelope1.
Proof. vm_compute. reflexivity. Qed.

Example validate_created_envelope : Event.validate TestEvent envelope1 = true.
Proof. vm_compute. reflexivity. Qed.

Example validate_rejects_missing_field :
Event.validate TestEvent
  (VObject {[ "id" := VBigInt 1; "time" := VNumber 1704067200007;
              "topic" := VString "test.topic"; "from" := VNumber 1;
              "to" := VArray []; "tags" := VArray [];
              "payload" := VObject ∅ ]}) = false.
Proof. vm_compute. reflexivity. Qed.

Example create_rejects_missing_field :
fst (Event.create TestEvent (VObject ∅) VUndefined world1)
= Thrown (ZodError (VObject ∅)).
Proof. vm_compute. reflexivity. Qed.

Example emit_two_handlers :
  Bus.emit test_handlers bus1 TestEvent (envelope_to []) two_subscribers.2
  = (Fulfills 50 tt,
     [(0%nat, Rejects 0 (Error_ "Sync Error")); (1%nat, Fulfills 50 VUndefined)],
     two_subscribers.2).
Proof. vm_compute. reflexivity. Qed.

Example emit_two_handlers_timeout :
  (Bus.emit test_handlers bus10 TestEvent (envelope_to []) two_subscribers.2).1.1
  = Fulfills 10 tt.
Proof. vm_compute. reflexivity. Qed.

Example flow_context10 :
  Flow.createFlowContext value10 world1 = (Normal context10, world1_after_id).
Proof. vm_compute. reflexivity. Qed.

Example flow_accumulates :
  Flow.build accumulating_flow value10 world1
  = (Normal tt,
     [Flow.StepRan 0 context10;
      Flow.StepRan 1 (<["extra1" := VString "foo"]> context10)],
     world1_after_id).
Proof. vm_compute. reflexivity. Qed.

Example flow_stops :
  Flow.build stopping_flow value10 world1
  = (Normal tt, [Flow.StepRan 0 context10], world1_after_id).
Proof. vm_compute. reflexivity. Qed.

Example flow_catches :
  Flow.build failing_flow value10 world1
  = (Normal tt,
     [Flow.StepRan 0 context10;
      Flow.StepRan 1 (<["extra1" := VString "foo"]> context10);
      Flow.CatchRan (<["extra1" := VString "foo"]> context10) (Error_ "test error")],
     world1_after_id).
Proof. vm_compute. reflexivity. Qed.

(* ===================================================================== *)
(** * Properties of the id generator *)
(* ===================================================================== *)

Module SnowFlakeFacts.
Import SnowFlake.
Local Open Scope Z_scope.

(** C1 (evaluation at the failing input). With worker 1 and a clock that
    stays on one millisecond for 4097 calls, the 4097th call exhausts the
    sequence space and waits for the clock, which the oracle shows by
    its last reading being consumed; yet the id it returns is the id of
    the first call, so the ids are not strictly increasing. *)
Theorem nextId_rollover_repeats_first_id :
  nondecreasing stuck_clock = true ∧
  ∃ ids sf,
    take_ids 4097 (new 1) stuck_clock = Some (ids, sf, []) ∧
    ids !! 0%nat = Some 4198400 ∧
    ids !! 4095%nat = Some 4202495 ∧
    ids !! 4096%nat = Some 4198400 ∧
    strictly_increasing ids = false.
Proof.
  split; first by vm_compute.
  assert (match take_ids 4097 (new 1) stuck_clock with
          | Some (ids, _, clk) =>
              clk = [] ∧ ids !! 0%nat = Some 4198400 ∧
              ids !! 4095%nat = Some 4202495 ∧ ids !! 4096%nat = Some 4198400 ∧
              strictly_increasing ids = false
          | None => False
          end) as H by (vm_compute; auto).
  destruct (take_ids 4097 (new 1) stuck_clock) as [[[ids sf] clk]|]; last done.
  destruct H as (-> & H); by exists ids, sf.
Qed.

Lemma lor_shiftl_low (a n b : Z) :
  0 ≤ n → 0 ≤ b < 2 ^ n → Z.lor (Z.shiftl a n) b = a * 2 ^ n + b.
Proof.
  intros Hn Hb.
  pose proof (Z.add_lor_land (Z.shiftl a n) b) as Hadd.
  assert (Z.land (Z.shiftl a n) b = 0) as Hland.
  { apply Z.bits_inj'. intros i Hi.
    rewrite Z.land_spec, Z.bits_0.
    destruct (Z.ltb_spec i n) as [Hlt|Hge].
    - by rewrite Z.shiftl_spec_low.
    - rewrite <- (Z.mod_small b (2 ^ n)) by done.
      rewrite Z.testbit_mod_pow2 by done.
      rewrite (proj2 (Z.ltb_ge i n)) by done.
      apply andb_false_r. }
  rewrite Hland in Hadd. rewrite Z.shiftl_mul_pow2 in Hadd |- * by done. lia.
Qed.

(** The id as a number, for a worker id of at most ten bits. *)
Lemma assemble_value (now : Z) (sf : SnowFlake) :
  0 ≤ workerId sf < 1024 → 0 ≤ sequence sf < 4096 →
  assemble now sf = (now - epoch) * 4194304 + workerId sf * 4096 + sequence sf.
Proof.
  intros Hw Hs. unfold assemble, workerIdBits, sequenceBits.
  change (10 + 12) with 22. rewrite <- Z.lor_assoc.
  rewrite (lor_shiftl_low (workerId sf) 12 (sequence sf));
    [|lia|change (2 ^ 12) with 4096; lia].
  rewrite lor_shiftl_low;
    [|lia|change (2 ^ 12) with 4096; change (2 ^ 22) with 4194304; lia].
  change (2 ^ 12) with 4096. change (2 ^ 22) with 4194304. lia.
Qed.

Lemma nextId_state (sf : SnowFlake) (clock : Clock) id sf1 clock1 :
  nextId sf clock = Some (id, sf1, clock1) →
  ∃ now rest, clock = now :: rest ∧ lastMs sf1 = now ∧ id = assemble now sf1
              ∧ workerId sf1 = workerId sf ∧ 0 ≤ sequence sf1 < 4096.
Proof.
  unfold nextId. destruct clock as [|now rest]; first done.
  assert (0 ≤ Z.land (sequence sf + 1) maxSequence < 4096) as Hland.
  { change maxSequence with (Z.ones 12). rewrite Z.land_ones by done.
    apply Z.mod_pos_bound. done. }
  case_bool_decide as Hnow.
  - case_bool_decide as Hseq; cbn.
    + destruct (busy_wait (lastMs sf) rest); cbn; last done.
      intros [= <- <- <-]. exists now, rest. cbn. split_and!; try done; lia.
    + intros [= <- <- <-]. exists now, rest. cbn. split_and!; try done; lia.
  - intros [= <- <- <-]. exists now, rest. cbn. split_and!; try done; lia.
Qed.

(** Outside a rollover the generator is monotone: of two consecutive calls
    on a clock that does not go back, the second returns the larger id,
    provided the second call did not wrap the sequence to zero within the
    millisecond of the first. *)
Theorem nextId_increases_without_rollover (sf : SnowFlake) (clock : Clock)
    (id1 id2 : Z) (sf1 sf2 : SnowFlake) (clock1 clock2 : Clock) (now1 now2 : Z) :
  0 ≤ workerId sf < 1024 →
  nextId sf clock = Some (id1, sf1, clock1) →
  nextId sf1 clock1 = Some (id2, sf2, clock2) →
  head clock = Some now1 → head clock1 = Some now2 → now1 ≤ now2 →
  (now2 = now1 → sequence sf2 ≠ 0) →
  id1 < id2.
Proof.
  intros Hw H1 H2 Hh1 Hh2 Hle Hroll.
  destruct (nextId_state _ _ _ _ _ H1) as (n1 & r1 & -> & Hl1 & -> & Hw1 & Hs1).
  destruct (nextId_state _ _ _ _ _ H2) as (n2 & r2 & -> & Hl2 & -> & Hw2 & Hs2).
  cbn in Hh1, Hh2. injection Hh1 as ->. injection Hh2 as ->.
  rewrite !assemble_value by lia. rewrite Hw2.
  destruct (decide (now2 = now1)) as [->|Hne]; last lia.
  specialize (Hroll eq_refl).
  unfold nextId in H2. rewrite bool_decide_eq_true_2 in H2 by done.
  rewrite bool_decide_eq_false_2 in H2.
  - injection H2 as _ <- _. cbn in *.
    change maxSequence with (Z.ones 12) in *. rewrite Z.land_ones in * by done.
    destruct (decide (sequence sf1 + 1 < 4096)) as [Hlt|Hge].
    + rewrite Z.mod_small by lia. lia.
    + replace (sequence sf1 + 1) with 4096 in Hroll by lia. done.
  - intros Hz. apply Hroll.
    rewrite bool_decide_eq_true_2 in H2 by done.
    destruct (busy_wait _ r2); last done.
    cbn in H2. injection H2 as _ <- _. exact Hz.
Qed.

(** Two calls within one millisecond. *)
Lemma nextId_increases_without_rollover_witness :
  nextId (new 1) [1704067200001; 1704067200001; 1704067200002]
  = Some (4198400, mk 1 1704067200001 0, [1704067200001; 1704067200002])
  ∧ nextId (mk 1 1704067200001 0) [1704067200001; 1704067200002]
    = Some (4198401, mk 1 1704067200001 1, [1704067200002])
  ∧ 4198400 < 4198401.
Proof.
  assert (nextId (new 1) [1704067200001; 1704067200001; 1704067200002]
          = Some (4198400, mk 1 1704067200001 0, [1704067200001; 1704067200002]))
    as H1 by (vm_compute; reflexivity).
  assert (nextId (mk 1 1704067200001 0) [1704067200001; 1704067200002]
          = Some (4198401, mk 1 1704067200001 1, [1704067200002]))
    as H2 by (vm_compute; reflexivity).
  split_and!; [exact H1|exact H2|].
  apply (nextId_increases_without_rollover (new 1) _ _ _ _ _ _ _
           1704067200001 1704067200001 ltac:(cbn; lia) H1 H2
           eq_refl eq_refl ltac:(lia)).
  intros _. cbn. discriminate.
Defined.

End SnowFlakeFacts.

(* ===================================================================== *)
(** * Properties of event creation *)
(* ===================================================================== *)

Module EventFacts.
Import Event EventSpec.
Local Open Scope Z_scope.

Lemma isEmpty_spec (v : JSValue) :
  isEmpty v = true ↔
  v = VUndefined ∨ v = VNull ∨ (typeof v = "object" ∧ keys_length v = 0%nat).
Proof.
  unfold isEmpty. split.
  - destruct v; try by auto.
    all: rewrite andb_true_iff, !bool_decide_eq_true; auto.
  - intros [-> | [-> | [Ht Hk]]]; try done.
    destruct v; try done; rewrite andb_true_iff, !bool_decide_eq_true; auto.
Qed.

Lemma looks_like_options_spec (v : JSValue) :
  looks_like_options v = true ↔
  typeof v = "object" ∧ v ≠ VNull ∧ ∃ k, k ∈ option_keys ∧ js_in k v = true.
Proof.
  unfold looks_like_options, option_keys. split.
  - rewrite !andb_true_iff, !orb_true_iff, bool_decide_eq_true.
    intros [[Ht Ho] Hk]. split; first done.
    split; first by intros ->.
    destruct Hk as [[[H|H]|H]|H]; eexists; (split; [|exact H]); set_solver.
  - intros (Ht & Hn & k & Hk & Hin).
    rewrite !andb_true_iff, !orb_true_iff, bool_decide_eq_true.
    split; first (split; [by destruct v | done]).
    set_unfold in Hk. destruct Hk as [->|[->|[->|[->|[]]]]]; tauto.
Qed.

Lemma resolveArgs_payload (ev : PerikanEvent) (payloadOrOpts opts : JSValue) :
  _resolveArgs ev payloadOrOpts opts =
  if negb (is_undefined opts) then (fallback ev payloadOrOpts, opts)
  else if looks_like_options payloadOrOpts
       then (fallback ev (get_prop payloadOrOpts "payload"), payloadOrOpts)
       else (fallback ev payloadOrOpts, VUndefined).
Proof.
  unfold _resolveArgs, fallback, opts_defaultPayload, coalesce.
  destruct (negb (is_undefined opts)); [|destruct (looks_like_options payloadOrOpts)];
    (destruct (isEmpty _); [|done]);
    by destruct (Event.opts ev ≫= defaultPayload) as [d|]; [destruct d|].
Qed.

(** C7. With a single argument after the facade: a non-null object that
    has one of the keys payload, tags, from, to is taken as the options
    and its [payload] field as the payload; anything else is taken as the
    payload itself; and a payload that is undefined, null or an object
    without keys is replaced by the default payload of the definition
    when there is one, by the empty object otherwise.  The three creation
    functions all start from this resolution. *)
Theorem resolveArgs_sole_argument (ev : PerikanEvent) (arg : JSValue) :
  ((typeof arg = "object" ∧ arg ≠ VNull ∧ ∃ k, k ∈ option_keys ∧ js_in k arg = true) →
     _resolveArgs ev arg VUndefined = (fallback ev (get_prop arg "payload"), arg))
  ∧ (¬ (typeof arg = "object" ∧ arg ≠ VNull ∧ ∃ k, k ∈ option_keys ∧ js_in k arg = true) →
     _resolveArgs ev arg VUndefined = (fallback ev arg, VUndefined))
  ∧ (∀ p, (p = VUndefined ∨ p = VNull ∨ (typeof p = "object" ∧ keys_length p = 0%nat)) →
       fallback ev p = match opts ev ≫= defaultPayload with
                       | Some d => if nullish d then VObject ∅ else d
                       | None => VObject ∅
                       end)
  ∧ (∀ p, ¬ (p = VUndefined ∨ p = VNull ∨ (typeof p = "object" ∧ keys_length p = 0%nat)) →
       fallback ev p = p)
  ∧ (∀ w, create ev arg VUndefined w =
          (let! _ := parsePayload ev (_resolveArgs ev arg VUndefined).1 in
           _buildEventData ev (_resolveArgs ev arg VUndefined).1
                              (_resolveArgs ev arg VUndefined).2) w)
  ∧ (∀ w, unsafeCreate ev arg VUndefined w =
          _buildEventData ev (_resolveArgs ev arg VUndefined).1
                             (_resolveArgs ev arg VUndefined).2 w)
  ∧ (∀ w, createAsync ev arg VUndefined w =
          (async_result 0 (create ev arg VUndefined w).1,
           (create ev arg VUndefined w).2)).
Proof.
  split_and!.
  - intros H%looks_like_options_spec.
    rewrite resolveArgs_payload. cbn [is_undefined negb]. by rewrite H.
  - intros H. rewrite resolveArgs_payload. cbn [is_undefined negb].
    destruct (looks_like_options arg) eqn:E; last done.
    by apply looks_like_options_spec in E.
  - intros p Hp%isEmpty_spec. unfold fallback. by rewrite Hp.
  - intros p Hp. unfold fallback.
    destruct (isEmpty p) eqn:E; last done. by apply isEmpty_spec in E.
  - intros w. unfold create. destruct (_resolveArgs ev arg VUndefined); reflexivity.
  - intros w. unfold unsafeCreate. destruct (_resolveArgs ev arg VUndefined); reflexivity.
  - intros w. unfold createAsync. destruct (create ev arg VUndefined w); reflexivity.
Qed.

(** An argument with the keys [payload] and [to] is read as the options. *)
Lemma resolveArgs_sole_argument_witness :
  _resolveArgs TestEvent
    (VObject {[ "payload" := VObject {[ "foo" := VString "bar" ]};
                "to" := VArray [VNumber 2] ]}) VUndefined
  = (fallback TestEvent
       (get_prop (VObject {[ "payload" := VObject {[ "foo" := VString "bar" ]};
                             "to" := VArray [VNumber 2] ]}) "payload"),
     VObject {[ "payload" := VObject {[ "foo" := VString "bar" ]};
                "to" := VArray [VNumber 2] ]}).
Proof.
  apply (resolveArgs_sole_argument TestEvent).
  split_and!; [reflexivity|discriminate|].
  exists "to". split; [set_solver|vm_compute; reflexivity].
Defined.

Lemma z_object_missing_required (shape : gmap string ZodType) (k : string)
    (s : ZodType) (props : gmap string JSValue) :
  shape !! k = Some s → s VUndefined = false → props !! k = None →
  z_object shape (VObject props) = false.
Proof.
  intros Hk Hs Hp. unfold z_object.
  apply not_true_is_false. intros H.
  rewrite forallb_forall in H.
  specialize (H (k, s)). cbn in H. rewrite Hp in H. cbn in H.
  rewrite H in Hs; first done.
  apply list_elem_of_In, elem_of_map_to_list, Hk.
Qed.

Lemma buildEventData_ok (ev : PerikanEvent) (payload options : JSValue)
    (w w1 w2 : World) (id time : Z) (ctags : list JSValue) :
  nextId w = (Normal id, w1) →
  date_now w1 = (Normal time, w2) →
  spread (coalesce (opt_chain options "tags") (VArray [])) = Some ctags →
  ∃ env, _buildEventData ev payload options w = (Normal env, w2)
         ∧ get_prop env "payload" = payload
         ∧ get_prop env "topic" = VString (topic ev)
         ∧ get_prop env "tags"
           = VArray ((VString <$> default [] (opts ev ≫= defaultTags)) ++ ctags).
Proof.
  intros Hid Hnow Htags.
  unfold _buildEventData, bind. rewrite Hid, Hnow, Htags.
  assert (spread (coalesce (opts_defaultTags ev) (VArray []))
          = Some (VString <$> default [] (opts ev ≫= defaultTags))) as ->.
  { unfold opts_defaultTags. by destruct (opts ev ≫= defaultTags). }
  eexists. split; first reflexivity.
  split_and!; by cbn.
Qed.

(** C6, as the code has it. A payload that is not empty and that is passed
    as the payload (next to an options argument, or alone and without any
    of the keys payload, tags, from, to) is validated as it stands: when it
    conforms, [create] returns an envelope that carries it unchanged and
    whose tags are the default tags followed by the call's tags; when it
    does not conform, in particular when it lacks a key the shape requires,
    [create] throws the validation error and the world is left untouched. *)
Theorem create_validates_given_payload (ev : PerikanEvent)
    (payload options : JSValue) (w w1 w2 : World) (id time : Z)
    (ctags : list JSValue) :
  (is_undefined options = false ∨ looks_like_options payload = false) →
  isEmpty payload = false →
  nextId w = (Normal id, w1) →
  date_now w1 = (Normal time, w2) →
  spread (coalesce (opt_chain options "tags") (VArray [])) = Some ctags →
  (payloadSchema ev payload = true →
     ∃ env, create ev payload options w = (Normal env, w2)
            ∧ get_prop env "payload" = payload
            ∧ get_prop env "tags"
              = VArray ((VString <$> default [] (opts ev ≫= defaultTags)) ++ ctags))
  ∧ (payloadSchema ev payload = false →
     create ev payload options w = (Thrown (ZodError payload), w))
  ∧ (∀ shape k s props,
       payloadSchema ev = z_object shape → shape !! k = Some s →
       s VUndefined = false → payload = VObject props → props !! k = None →
       create ev payload options w = (Thrown (ZodError payload), w)).
Proof.
  intros Hform Hne Hid Hnow Htags.
  assert (_resolveArgs ev payload options = (payload, options)) as Hres.
  { rewrite resolveArgs_payload. unfold fallback. rewrite Hne.
    destruct Hform as [H|H].
    - by rewrite H.
    - rewrite H. by destruct options. }
  assert (payloadSchema ev payload = false →
          create ev payload options w = (Thrown (ZodError payload), w)) as Hbad.
  { intros Hs. unfold create. rewrite Hres.
    unfold bind, parsePayload. by rewrite Hs. }
  split_and!; [|done|].
  - intros Hs.
    destruct (buildEventData_ok ev payload options w w1 w2 id time ctags)
      as (env & Hb & Hp & _ & Ht); [done..|].
    exists env. split_and!; [|done..].
    unfold create. rewrite Hres. unfold bind at 1, parsePayload. by rewrite Hs.
  - intros shape k s props Hshape Hk Hs -> Hp. apply Hbad.
    rewrite Hshape. by eapply z_object_missing_required.
Qed.

(** The test event created with a payload and a tags option. *)
Lemma create_validates_given_payload_witness :
  (payloadSchema TestEvent (VObject {[ "foo" := VString "bar" ]}) = true →
     ∃ env, create TestEvent (VObject {[ "foo" := VString "bar" ]})
              (VObject {[ "tags" := VArray [VString "x"] ]}) world1
            = (Normal env,
               World.mk [1704067200008; 1704067200009]
                 (Perikan.mk 1 (SnowFlake.mk 1 1704067200005 0)) ∅ ∅ ∅)
            ∧ get_prop env "payload" = VObject {[ "foo" := VString "bar" ]}
            ∧ get_prop env "tags"
              = VArray ((VString <$> default [] (opts TestEvent ≫= defaultTags))
                        ++ [VString "x"]))
  ∧ (payloadSchema TestEvent (VObject {[ "foo" := VString "bar" ]}) = false →
     create TestEvent (VObject {[ "foo" := VString "bar" ]})
       (VObject {[ "tags" := VArray [VString "x"] ]}) world1
     = (Thrown (ZodError (VObject {[ "foo" := VString "bar" ]})), world1))
  ∧ (∀ shape k s props,
       payloadSchema TestEvent = z_object shape → shape !! k = Some s →
       s VUndefined = false → VObject {[ "foo" := VString "bar" ]} = VObject props →
       props !! k = None →
       create TestEvent (VObject {[ "foo" := VString "bar" ]})
         (VObject {[ "tags" := VArray [VString "x"] ]}) world1
       = (Thrown (ZodError (VObject {[ "foo" := VString "bar" ]})), world1)).
Proof.
  apply (create_validates_given_payload TestEvent
           (VObject {[ "foo" := VString "bar" ]})
           (VObject {[ "tags" := VArray [VString "x"] ]})
           world1
           (World.mk [1704067200007; 1704067200008; 1704067200009]
              (Perikan.mk 1 (SnowFlake.mk 1 1704067200005 0)) ∅ ∅ ∅)
           (World.mk [1704067200008; 1704067200009]
              (Perikan.mk 1 (SnowFlake.mk 1 1704067200005 0)) ∅ ∅ ∅)
           20975616 1704067200007 [VString "x"]).
  - left. reflexivity.
  - vm_compute. reflexivity.
  - vm_compute. reflexivity.
  - vm_compute. reflexivity.
  - vm_compute. reflexivity.
Defined.

(** C6, the claim as written, fails on the code. An empty payload lacks
    the required field [foo], yet [create] does not fail: the default
    payload of the definition takes its place and an envelope comes back.
    And a conforming payload passed alone is read as the options when one
    of its fields is named [tags]: [create] then validates the empty object
    and throws. *)
Lemma create_empty_payload_uses_default :
  payloadSchema DefaultedEvent (VObject ∅) = false
  ∧ (∃ env, (create DefaultedEvent (VObject ∅) VUndefined world1).1 = Normal env
            ∧ get_prop env "payload" = VObject {[ "foo" := VString "dflt" ]}
            ∧ get_prop env "payload" ≠ VObject ∅)
  ∧ payloadSchema TaggedEvent (VObject {[ "tags" := VArray [VString "a"] ]}) = true
  ∧ (create TaggedEvent (VObject {[ "tags" := VArray [VString "a"] ]})
       VUndefined world1).1 = Thrown (ZodError (VObject ∅)).
Proof.
  split_and!.
  - by vm_compute.
  - eexists. split_and!.
    + vm_compute. reflexivity.
    + by vm_compute.
    + vm_compute. by intros [=].
  - by vm_compute.
  - by vm_compute.
Qed.

End EventFacts.

(* ===================================================================== *)
(** * Properties of the bus: delivery *)
(* ===================================================================== *)

Module EmitFacts.
Import Event Bus.
Local Open Scope Z_scope.

Lemma z_object_lookup (shape : gmap string ZodType) (k : string) (s : ZodType)
    (props : gmap string JSValue) :
  z_object shape (VObject props) = true → shape !! k = Some s →
  s (default VUndefined (props !! k)) = true.
Proof.
  unfold z_object. rewrite forallb_forall. intros H Hk.
  apply (H (k, s)), list_elem_of_In, elem_of_map_to_list, Hk.
Qed.

(** A validated envelope is an object whose [to] is an array. *)
Lemma validate_to_array (ev : PerikanEvent) (data : JSValue) :
  validate ev data = true →
  ∃ items, get_prop data "to" = VArray items.
Proof.
  unfold validate, eventSchema. intros H.
  destruct data as [| | | | | | |props|]; [done..| |done].
  eapply (z_object_lookup _ "to" (z_array z_number)) in H; last by vm_compute.
  cbn. destruct (props !! "to") as [[]|]; try discriminate. by eexists.
Qed.

Lemma validate_accepts (ev : PerikanEvent) (data : JSValue) (worker : Z) :
  validate ev data = true → is_Some (accepts (get_prop data "to") worker).
Proof. intros [items ->]%validate_to_array. by eexists. Qed.

Lemma allSettled_never_rejects {A} (ps : list (Fate A)) t e :
  allSettled ps ≠ Rejects t e.
Proof. unfold allSettled. by destruct (mapM settles_at ps), (mapM outcome ps). Qed.

Lemma foldr_max_ge (ts : list Z) (t : Z) : t ∈ ts → t ≤ foldr Z.max 0 ts.
Proof.
  induction ts as [|a ts IH]; first by intros ?%elem_of_nil.
  intros [->|Hin]%elem_of_cons; cbn; [lia|]. specialize (IH Hin). lia.
Qed.

(** When [allSettled] fulfils at [T], every member has settled by [T]. *)
Lemma allSettled_waits {A} (ps : list (Fate A)) T os :
  allSettled ps = Fulfills T os →
  ∀ p, p ∈ ps → ∃ t, settles_at p = Some t ∧ t ≤ T.
Proof.
  unfold allSettled.
  destruct (mapM settles_at ps) as [ts|] eqn:Hts; last by destruct (mapM outcome ps).
  destruct (mapM outcome ps); last done.
  intros [= <- _] p Hp.
  apply mapM_Some in Hts.
  destruct (proj1 (list_elem_of_lookup _ _) Hp) as [i Hi].
  destruct (Forall2_lookup_l _ _ _ _ _ Hts Hi) as (t & Ht & Hs).
  exists t. split; first done.
  apply foldr_max_ge. by eapply list_elem_of_lookup_2.
Qed.

(** Every member settles: [allSettled] fulfils. *)
Lemma allSettled_fulfils {A} (ps : list (Fate A)) :
  (∀ p, p ∈ ps → is_Some (settles_at p)) →
  ∃ T os, allSettled ps = Fulfills T os.
Proof.
  intros H. unfold allSettled.
  destruct (mapM settles_at ps) as [ts|] eqn:Hts.
  - destruct (mapM outcome ps) as [os|] eqn:Hos; first by eauto.
    apply mapM_None in Hos. apply Exists_exists in Hos as (p & Hp & Hn).
    destruct (H p Hp) as [t Ht]. by destruct p.
  - apply mapM_None in Hts. apply Exists_exists in Hts as (p & Hp & Hn).
    destruct (H p Hp) as [t Ht]. congruence.
Qed.

Lemma with_timeout_settles (bus : PerikanLocalBus) (task : Fate JSValue) t :
  settles_at (with_timeout bus task) = Some t →
  settles_at task = Some t ∨ (0 < maxTimeout bus ∧ t = maxTimeout bus).
Proof.
  unfold with_timeout. destruct (0 <? maxTimeout bus) eqn:E; last by left.
  apply Z.ltb_lt in E. unfold race, reject_after. cbn.
  destruct (settles_at task) as [tp|] eqn:Hs; cbn.
  - destruct (tp <=? maxTimeout bus); cbn; [rewrite Hs; by left|].
    intros [= <-]. by right.
  - intros [= <-]. by right.
Qed.

Lemma with_timeout_bounded (bus : PerikanLocalBus) (task : Fate JSValue) :
  0 < maxTimeout bus → is_Some (settles_at (with_timeout bus task)).
Proof.
  intros H%Z.ltb_lt. unfold with_timeout, race, reject_after. rewrite H. cbn.
  destruct (settles_at task) as [tp|] eqn:Hs; cbn; last by eexists.
  destruct (tp <=? maxTimeout bus); cbn; [rewrite Hs|]; by eexists.
Qed.

Section WithHandlers.
Variable handler_code : HandlerRef → JSValue → World → CallResult * World.

Lemma call_handlers_all (handlers : list HandlerRef) (data : JSValue) (w : World) :
  (call_handlers handler_code handlers data w).1.*1 = handlers.
Proof.
  revert w. induction handlers as [|h hs IH]; intros w; first done.
  cbn. destruct (handler_code h data w) as [r w1].
  specialize (IH w1). destruct (call_handlers handler_code hs data w1).
  cbn in *. by rewrite IH.
Qed.

Lemma call_handlers_captured (handlers : list HandlerRef) (data : JSValue)
    (w : World) h task :
  (h, task) ∈ (call_handlers handler_code handlers data w).1 →
  ∃ wi, task = capture (handler_code h data wi).1.
Proof.
  revert w. induction handlers as [|h' hs IH]; intros w; first by intros ?%elem_of_nil.
  cbn. destruct (handler_code h' data w) as [r w1] eqn:Hr.
  specialize (IH w1). destruct (call_handlers handler_code hs data w1).
  cbn in *. intros [[= -> ->]|Hin]%elem_of_cons; last by auto.
  exists w. by rewrite Hr.
Qed.

(** The three ways [emit] can go, by its guards. *)
Lemma emit_invalid bus ev data w :
  validate ev data = false →
  emit handler_code bus ev data w = (Fulfills 0 tt, [], w).
Proof. intros H. unfold emit. by rewrite H. Qed.

Lemma emit_filtered bus ev data w :
  validate ev data = true →
  accepts (get_prop data "to") (workerId bus) = Some false →
  emit handler_code bus ev data w = (Fulfills 0 tt, [], w).
Proof. intros H Ha. unfold emit. by rewrite H, Ha. Qed.

Lemma emit_delivered bus ev data w :
  validate ev data = true →
  accepts (get_prop data "to") (workerId bus) = Some true →
  (emit handler_code bus ev data w).1.2.*1 = registered w (topic ev).
Proof.
  intros H Ha. unfold emit, registered. rewrite H, Ha. cbn.
  destruct (handlersMap w !! topic ev) as [r|]; last done.
  pose proof (call_handlers_all (default [] (sets w !! r)) data w) as Hall.
  by destruct (call_handlers handler_code (default [] (sets w !! r)) data w).
Qed.

Lemma emit_log_delivered bus ev data w h task :
  (h, task) ∈ (emit handler_code bus ev data w).1.2 →
  validate ev data = true
  ∧ accepts (get_prop data "to") (workerId bus) = Some true
  ∧ h ∈ registered w (topic ev)
  ∧ ∃ wi, task = capture (handler_code h data wi).1.
Proof.
  unfold emit, registered.
  destruct (validate ev data); cbn; last by intros ?%elem_of_nil.
  destruct (accepts _ _) as [[]|]; cbn; try by intros ?%elem_of_nil.
  destruct (handlersMap w !! topic ev) as [r|]; last by intros ?%elem_of_nil.
  pose proof (call_handlers_all (default [] (sets w !! r)) data w) as Hall.
  pose proof (call_handlers_captured (default [] (sets w !! r)) data w h task) as Hc.
  destruct (call_handlers handler_code (default [] (sets w !! r)) data w) as [log w1].
  cbn in *. intros Hin. split_and!; [done..| |by auto].
  rewrite <- Hall. by apply (list_elem_of_fmap_2 fst _ (h, task)).
Qed.

Lemma emit_no_topic bus ev data w :
  handlersMap w !! topic ev = None →
  emit handler_code bus ev data w = (Fulfills 0 tt, [], w).
Proof.
  intros Hm. unfold emit.
  destruct (validate ev data) eqn:Hv; cbn; last done.
  destruct (validate_accepts ev data (workerId bus) Hv) as [[] ->]; last done.
  by rewrite Hm.
Qed.

Lemma emit_fate bus ev data w :
  validate ev data = true →
  accepts (get_prop data "to") (workerId bus) = Some true →
  (emit handler_code bus ev data w).1.1 =
  match allSettled (with_timeout bus <$> (emit handler_code bus ev data w).1.2.*2) with
  | Fulfills t _ => Fulfills t tt
  | Rejects t e => Rejects t e
  | Never => Never
  end.
Proof.
  intros H Ha. unfold emit. rewrite H, Ha. cbn.
  destruct (handlersMap w !! topic ev) as [r|]; last done.
  by destruct (call_handlers handler_code (default [] (sets w !! r)) data w).
Qed.


(** C5. For a valid envelope: with an empty [to] every registered handler
    is called whatever the worker id of the bus; with [to = [W]] the
    registered handlers are called when [W] is the worker id of the bus and
    none is otherwise; and with a non-empty [to] that does not contain the
    worker id, [emit] resolves without calling any handler. *)
Theorem emit_worker_targeting bus ev data w items :
  validate ev data = true →
  get_prop data "to" = VArray items →
  (items = [] →
     (emit handler_code bus ev data w).1.2.*1 = registered w (topic ev))
  ∧ (∀ W, items = [VNumber W] →
       (emit handler_code bus ev data w).1.2.*1 =
       if bool_decide (W = workerId bus) then registered w (topic ev) else [])
  ∧ (items ≠ [] → VNumber (workerId bus) ∉ items →
       emit handler_code bus ev data w = (Fulfills 0 tt, [], w)).
Proof.
  intros Hv Hto. split_and!.
  - intros ->. apply emit_delivered; first done. by rewrite Hto.
  - intros W ->. case_bool_decide as HW.
    + apply emit_delivered; first done. rewrite Hto. cbn.
      by rewrite (bool_decide_eq_true_2 (W = workerId bus)).
    + rewrite emit_filtered; [done..|]. rewrite Hto. cbn.
      by rewrite (bool_decide_eq_false_2 (W = workerId bus)).
  - intros Hne Hnot. apply emit_filtered; first done. rewrite Hto. cbn.
    f_equal. apply orb_false_iff. split.
    + apply bool_decide_eq_false. by destruct items.
    + apply not_true_is_false. intros (v & Hin & Hv')%existsb_exists.
      destruct v; try done. apply bool_decide_eq_true in Hv' as ->.
      by apply Hnot, list_elem_of_In.
Qed.

(** C2. The promise [emit] returns never rejects. For an envelope that
    passes validation and the worker filter, every handler registered
    under the topic is called, once and in registration order, whatever
    the other handlers do; a handler that throws or whose promise rejects
    leaves the bus with a rejected promise for it; [emit] resolves no
    earlier than each of these promises settles or, under a positive
    timeout, is given up at the timeout; and with a positive timeout it
    always resolves. *)
Theorem emit_never_rejects bus ev data w :
  (∀ t e, (emit handler_code bus ev data w).1.1 ≠ Rejects t e)
  ∧ (validate ev data = true →
     accepts (get_prop data "to") (workerId bus) = Some true →
     (emit handler_code bus ev data w).1.2.*1 = registered w (topic ev)
     ∧ (∀ h task, (h, task) ∈ (emit handler_code bus ev data w).1.2 →
          ∃ wi, task = capture (handler_code h data wi).1
                ∧ (∀ e, (handler_code h data wi).1 = Threw e →
                        outcome task = Some (SRejected e))
                ∧ (∀ t e, (handler_code h data wi).1 = ReturnedPromise (Rejects t e) →
                          outcome task = Some (SRejected e)))
     ∧ (∀ T, (emit handler_code bus ev data w).1.1 = Fulfills T tt →
          ∀ h task, (h, task) ∈ (emit handler_code bus ev data w).1.2 →
            ∃ t, t ≤ T ∧ (settles_at task = Some t
                          ∨ (0 < maxTimeout bus ∧ t = maxTimeout bus)))
     ∧ (0 < maxTimeout bus →
          ∃ T, (emit handler_code bus ev data w).1.1 = Fulfills T tt)).
Proof.
  split.
  - intros t e. unfold emit.
    destruct (validate ev data) eqn:Hv; cbn; last done.
    destruct (validate_accepts ev data (workerId bus) Hv) as [b ->].
    destruct b; last done.
    destruct (handlersMap w !! topic ev) as [r|]; last done.
    destruct (call_handlers handler_code (default [] (sets w !! r)) data w) as [log w1].
    cbn. pose proof (allSettled_never_rejects (with_timeout bus <$> log.*2)) as Hn.
    destruct (allSettled (with_timeout bus <$> log.*2)); [done| |done].
    by destruct (Hn t0 e0).
  - intros Hv Ha. split_and!.
    + by apply emit_delivered.
    + intros h task (_ & _ & _ & wi & ->)%emit_log_delivered.
      exists wi. split_and!; [done|intros e ->|intros t e ->]; done.
    + intros T HT h task Hin. rewrite emit_fate in HT by done.
      destruct (allSettled _) as [T' os| |] eqn:Hall; [|done..].
      injection HT as ->.
      destruct (allSettled_waits _ _ _ Hall (with_timeout bus task)) as (t & Ht & Hle).
      { apply list_elem_of_fmap_2. by apply (list_elem_of_fmap_2 snd _ (h, task)). }
      exists t. split; first done. by apply with_timeout_settles.
    + intros Hpos. rewrite emit_fate by done.
      destruct (allSettled_fulfils (with_timeout bus <$> (emit handler_code bus ev data w).1.2.*2))
        as (T & os & ->); last by eauto.
      intros p (task & -> & _)%list_elem_of_fmap. by apply with_timeout_bounded.
Qed.

End WithHandlers.


(** An envelope for worker 2 on the bus of worker 1. *)
Lemma emit_worker_targeting_witness :
  validate TestEvent (envelope_to [VNumber 2]) = true
  ∧ get_prop (envelope_to [VNumber 2]) "to" = VArray [VNumber 2]
  ∧ (emit test_handlers bus1 TestEvent (envelope_to [VNumber 2])
       two_subscribers.2).1.2.*1
    = (if bool_decide (2 = workerId bus1)
       then registered two_subscribers.2 (topic TestEvent) else [])
  ∧ emit test_handlers bus1 TestEvent (envelope_to [VNumber 2]) two_subscribers.2
    = (Fulfills 0 tt, [], two_subscribers.2).
Proof.
  assert (validate TestEvent (envelope_to [VNumber 2]) = true) as Hv
    by (vm_compute; reflexivity).
  assert (get_prop (envelope_to [VNumber 2]) "to" = VArray [VNumber 2]) as Hto
    by (vm_compute; reflexivity).
  destruct (emit_worker_targeting test_handlers bus1 TestEvent
              (envelope_to [VNumber 2]) two_subscribers.2 [VNumber 2] Hv Hto)
    as (_ & Hone & Hnone).
  split_and!; [exact Hv|exact Hto|exact (Hone 2 eq_refl)|].
  apply Hnone; first discriminate.
  intros Hin. apply list_elem_of_In in Hin. vm_compute in Hin.
  destruct Hin as [Hin|[]]. discriminate Hin.
Defined.

(** A broadcast to a throwing and to a slow handler, under a timeout. *)
Lemma emit_never_rejects_witness :
  validate TestEvent (envelope_to []) = true
  ∧ accepts (get_prop (envelope_to []) "to") (workerId bus10) = Some true
  ∧ (emit test_handlers bus10 TestEvent (envelope_to []) two_subscribers.2).1.2.*1
    = registered two_subscribers.2 (topic TestEvent)
  ∧ ∃ T, (emit test_handlers bus10 TestEvent (envelope_to []) two_subscribers.2).1.1
         = Fulfills T tt.
Proof.
  assert (validate TestEvent (envelope_to []) = true) as Hv
    by (vm_compute; reflexivity).
  assert (accepts (get_prop (envelope_to []) "to") (workerId bus10) = Some true) as Ha
    by (vm_compute; reflexivity).
  destruct (emit_never_rejects test_handlers bus10 TestEvent (envelope_to [])
              two_subscribers.2) as (_ & H).
  destruct (H Hv Ha) as (Hall & _ & _ & Hres).
  split_and!; [exact Hv|exact Ha|exact Hall|].
  apply Hres. vm_compute. reflexivity.
Defined.

End EmitFacts.

(* ===================================================================== *)
(** * Properties of the bus: the registry *)
(* ===================================================================== *)

Module RegistryFacts.
Import Event Bus RegistrySpec.

Lemma set_add_nonempty h hs : set_add h hs ≠ [].
Proof.
  unfold set_add. case_bool_decide as H.
  - intros ->. by apply elem_of_nil in H.
  - by destruct hs.
Qed.

Lemma on_existing ev h w r :
  handlersMap w !! topic ev = Some r →
  on ev h w =
  (mkUnsubscribe r h (topic ev),
   set_sets (<[r := set_add h (default [] (sets w !! r))]> (sets w)) w).
Proof. intros H. unfold on. by rewrite H. Qed.

Lemma on_fresh ev h w :
  handlersMap w !! topic ev = None →
  on ev h w =
  (mkUnsubscribe (fresh (dom (sets w))) h (topic ev),
   World.mk (clock w) (perikan w)
     (<[topic ev := fresh (dom (sets w))]> (handlersMap w))
     (<[fresh (dom (sets w)) := [h]]> (sets w)) (vars w)).
Proof.
  intros H. unfold on. rewrite H. cbn.
  rewrite lookup_insert_eq. cbn. by rewrite insert_insert_eq.
Qed.

Lemma fresh_set_unallocated (w : World) : sets w !! fresh (dom (sets w)) = None.
Proof. apply not_elem_of_dom, is_fresh. Qed.

Lemma inv_on w us ev h :
  registry_inv w us →
  registry_inv (on ev h w).2 ((on ev h w).1 :: us).
Proof.
  intros [Hne Hinj Hal Htop].
  destruct (handlersMap w !! topic ev) as [r|] eqn:Hr.
  - rewrite (on_existing _ _ _ _ Hr). cbn. split; cbn.
    + intros t r' Ht. destruct (decide (r' = r)) as [->|Hneq].
      * rewrite lookup_insert_eq. eexists. split; first done. apply set_add_nonempty.
      * rewrite lookup_insert_ne by done. by eapply Hne.
    + done.
    + intros u [->|Hu]%elem_of_cons; cbn.
      * by rewrite lookup_insert_eq.
      * destruct (decide (captured_handlers u = r)) as [->|Hneq].
        -- by rewrite lookup_insert_eq.
        -- rewrite lookup_insert_ne by done. by apply Hal.
    + intros u t [->|Hu]%elem_of_cons; cbn; last by auto.
      intros Ht. by eapply Hinj.
  - rewrite (on_fresh _ _ _ Hr). cbn.
    pose proof (fresh_set_unallocated w) as Hf.
    set (r := fresh (dom (sets w))) in *.
    assert (∀ t, handlersMap w !! t ≠ Some r) as Hnot.
    { intros t Ht. destruct (Hne _ _ Ht) as (hs & Hs & _). congruence. }
    split; cbn.
    + intros t r' Ht. destruct (decide (t = topic ev)) as [->|Hneq].
      * rewrite lookup_insert_eq in Ht. injection Ht as <-.
        rewrite lookup_insert_eq. by eexists.
      * rewrite lookup_insert_ne in Ht by done.
        destruct (Hne _ _ Ht) as (hs & Hs & Hn).
        rewrite lookup_insert_ne by congruence. by eexists.
    + intros t1 t2 r' H1 H2.
      destruct (decide (t1 = topic ev)) as [->|N1], (decide (t2 = topic ev)) as [->|N2];
        first done.
      * rewrite lookup_insert_eq in H1. injection H1 as <-.
        rewrite lookup_insert_ne in H2 by done. by destruct (Hnot t2).
      * rewrite lookup_insert_eq in H2. injection H2 as <-.
        rewrite lookup_insert_ne in H1 by done. by destruct (Hnot t1).
      * rewrite lookup_insert_ne in H1, H2 by done. by eapply Hinj.
    + intros u [->|Hu]%elem_of_cons; cbn.
      * by rewrite lookup_insert_eq.
      * destruct (Hal u Hu) as [hs Hs].
        rewrite lookup_insert_ne by congruence. by eexists.
    + intros u t [->|Hu]%elem_of_cons; cbn.
      * destruct (decide (t = topic ev)) as [->|Hneq]; first done.
        rewrite lookup_insert_ne by done. intros Ht. by destruct (Hnot t).
      * destruct (decide (t = topic ev)) as [->|Hneq].
        -- rewrite lookup_insert_eq. intros [= Heq].
           destruct (Hal u Hu) as [hs Hs]. congruence.
        -- rewrite lookup_insert_ne by done. by apply Htop.
Qed.

Lemma inv_unsubscribe w us u :
  registry_inv w us → u ∈ us → registry_inv (unsubscribe u w) us.
Proof.
  intros [Hne Hinj Hal Htop] Hu. unfold unsubscribe.
  destruct (Hal u Hu) as [hs Hs]. rewrite Hs.
  set (hs1 := set_delete (captured_handler u) hs).
  assert (∀ u', u' ∈ us →
            is_Some (<[captured_handlers u := hs1]> (sets w) !! captured_handlers u'))
    as Hal'.
  { intros u' Hu'. destruct (decide (captured_handlers u' = captured_handlers u)) as [->|N].
    - by rewrite lookup_insert_eq.
    - rewrite lookup_insert_ne by done. by apply Hal. }
  case_bool_decide as Hlen; split; cbn; try done.
  - intros t r Ht.
    destruct (decide (t = captured_topic u)) as [->|Hneq].
    { by rewrite lookup_delete_eq in Ht. }
    rewrite lookup_delete_ne in Ht by done.
    destruct (decide (r = captured_handlers u)) as [->|N].
    { by destruct Hneq, (Htop u t Hu Ht). }
    rewrite lookup_insert_ne by done. by eapply Hne.
  - intros t1 t2 r [? H1]%lookup_delete_Some [? H2]%lookup_delete_Some.
    by eapply Hinj.
  - intros u' t Hu' [? Ht]%lookup_delete_Some. by apply Htop.
  - intros t r Ht.
    destruct (decide (r = captured_handlers u)) as [->|N].
    + rewrite lookup_insert_eq. eexists. split; first done.
      intros Hnil. by rewrite Hnil in Hlen.
    + rewrite lookup_insert_ne by done. by eapply Hne.
Qed.

Lemma reachable_inv w us : reachable w us → registry_inv w us.
Proof.
  induction 1 as [w Hempty|w us ev h _ IH|w us u _ IH Hu].
  - split.
    + intros t r. by rewrite Hempty, lookup_empty.
    + intros t1 t2 r. by rewrite Hempty, lookup_empty.
    + by intros u ?%elem_of_nil.
    + by intros u t ?%elem_of_nil.
  - by apply inv_on.
  - by apply inv_unsubscribe.
Qed.

Lemma registered_nonempty w t :
  (∀ t r, handlersMap w !! t = Some r → ∃ hs, sets w !! r = Some hs ∧ hs ≠ []) →
  is_Some (handlersMap w !! t) ↔ registered w t ≠ [].
Proof.
  intros Hne. unfold registered. split.
  - intros [r Hr]. rewrite Hr. by destruct (Hne _ _ Hr) as (hs & -> & ?).
  - destruct (handlersMap w !! t); [by eexists|done].
Qed.

(** C4. In every state of the registry that calls of [on] and of the
    closures [on] returned lead to, each topic present in [handlersMap]
    points to a [Set] that holds at least one handler. And when a closure
    removes the only handler of its topic, the topic leaves the map: an
    [emit] on that topic afterwards calls no handler and resolves. *)
Theorem registry_sets_nonempty (w : World) (us : list Unsubscribe) :
  reachable w us →
  (∀ t r, handlersMap w !! t = Some r → ∃ hs, sets w !! r = Some hs ∧ hs ≠ [])
  ∧ (∀ t, is_Some (handlersMap w !! t) ↔ registered w t ≠ [])
  ∧ (∀ u, u ∈ us →
       handlersMap w !! captured_topic u = Some (captured_handlers u) →
       registered w (captured_topic u) = [captured_handler u] →
       handlersMap (unsubscribe u w) !! captured_topic u = None
       ∧ ∀ handler_code bus ev data,
           topic ev = captured_topic u →
           emit handler_code bus ev data (unsubscribe u w)
           = (Fulfills 0 tt, [], unsubscribe u w)).
Proof.
  intros Hinv%reachable_inv.
  pose proof (inv_nonempty _ _ Hinv) as Hne.
  split_and!; first done.
  - intros t. by apply registered_nonempty.
  - intros u Hu Hmap Hreg.
    assert (handlersMap (unsubscribe u w) !! captured_topic u = None) as Hgone.
    { unfold unsubscribe. unfold registered in Hreg. rewrite Hmap in Hreg.
      destruct (Hne _ _ Hmap) as (hs & Hs & _). rewrite Hs in Hreg |- *.
      cbn in Hreg. subst hs. unfold set_delete. cbn.
      rewrite decide_False by (by intros []).
      cbn. apply lookup_delete_eq. }
    split; first done.
    intros handler_code bus ev data Ht. apply EmitFacts.emit_no_topic. by rewrite Ht.
Qed.

(** A closure called a second time still tests the [Set] it captured.
    After handler 0 was unsubscribed and handler 1 subscribed to the same
    topic, a second call of the first closure finds its own [Set] empty
    and deletes the topic, although the [Set] now registered holds handler
    1: the handler is not called any more. *)
Theorem unsubscribe_twice_drops_topic :
  registered resubscribed.2 "test.topic" = [1]
  ∧ reachable (unsubscribe one_subscriber.1 resubscribed.2)
              [resubscribed.1; one_subscriber.1]
  ∧ handlersMap (unsubscribe one_subscriber.1 resubscribed.2) !! "test.topic" = None
  ∧ sets (unsubscribe one_subscriber.1 resubscribed.2)
      !! captured_handlers resubscribed.1 = Some [1]
  ∧ emit test_handlers bus1 TestEvent (envelope_to [])
      (unsubscribe one_subscriber.1 resubscribed.2)
    = (Fulfills 0%Z tt, [], unsubscribe one_subscriber.1 resubscribed.2).
Proof.
  split_and!; try (vm_compute; reflexivity).
  apply reach_unsubscribe; last set_solver.
  apply (reach_on _ [one_subscriber.1] TestEvent 1).
  apply reach_unsubscribe; last set_solver.
  apply (reach_on world1 [] TestEvent 0), reach_new. reflexivity.
Qed.

(** One handler subscribed, then unsubscribed. *)
Lemma registry_sets_nonempty_witness :
  reachable one_subscriber.2 [one_subscriber.1]
  ∧ registered one_subscriber.2 (captured_topic one_subscriber.1)
    = [captured_handler one_subscriber.1]
  ∧ handlersMap (unsubscribe one_subscriber.1 one_subscriber.2)
      !! captured_topic one_subscriber.1 = None.
Proof.
  assert (reachable one_subscriber.2 [one_subscriber.1]) as Hr.
  { apply (reach_on world1 [] TestEvent 0%nat), reach_new. reflexivity. }
  assert (registered one_subscriber.2 (captured_topic one_subscriber.1)
          = [captured_handler one_subscriber.1]) as Hreg
    by (vm_compute; reflexivity).
  split_and!; [exact Hr|exact Hreg|].
  destruct (registry_sets_nonempty _ _ Hr) as (_ & _ & H).
  apply (H one_subscriber.1); [apply list_elem_of_here|vm_compute; reflexivity|exact Hreg].
Defined.

End RegistryFacts.

(* ===================================================================== *)
(** * Properties of the pipeline *)
(* ===================================================================== *)

Module FlowFacts.
Import Flow FlowSpec.

Lemma is_false_spec (v : JSValue) : is_false v = true ↔ v = VBool false.
Proof. split; last by intros ->. by destruct v as [| |[]| | | | | |]. Qed.

Lemma is_mergeable_spec (v : JSValue) : is_mergeable v = true ↔ plain_object v.
Proof.
  unfold is_mergeable, plain_object.
  rewrite !andb_true_iff, bool_decide_eq_true, negb_true_iff.
  split.
  - intros [[Ht Ho] Ha]. split_and!; [done| |done]. by intros ->.
  - intros (Ho & Hn & Ha). split_and!; [|done..]. by destruct v.
Qed.

Lemma object_assign_merge (ctx : FlowContext) (result : JSValue) :
  shallow_merge ctx result (object_assign ctx result).
Proof.
  intros k. destruct result; try done. cbn.
  rewrite lookup_union. destruct (props !! k), (ctx !! k); done.
Qed.

Lemma shallow_merge_unique ctx result m1 m2 :
  shallow_merge ctx result m1 → shallow_merge ctx result m2 → m1 = m2.
Proof. intros H1 H2. apply map_eq. intros k. by rewrite H1, H2. Qed.

Lemma run_pipes_sound fns i ctx w :
  spec_run fns i ctx w (run_pipes fns i ctx w).1.1
                       (run_pipes fns i ctx w).1.2 (run_pipes fns i ctx w).2.
Proof.
  revert i ctx w. induction fns as [|fn rest IH]; intros i ctx w; first by constructor.
  cbn. destruct (fn ctx w) as [r w1] eqn:Hfn.
  destruct (await_call r) as [result| |] eqn:Hr; cbn.
  - destruct (is_false result) eqn:Hf; cbn.
    { apply is_false_spec in Hf as ->. by econstructor. }
    destruct (is_mergeable result) eqn:Hm.
    + specialize (IH (S i) (object_assign ctx result) w1).
      destruct (run_pipes rest (S i) (object_assign ctx result) w1) as [[e log] w2].
      eapply spec_merge; eauto using object_assign_merge.
      by apply is_mergeable_spec.
    + specialize (IH (S i) ctx w1).
      destruct (run_pipes rest (S i) ctx w1) as [[e log] w2].
      eapply spec_continue; eauto.
      * intros ->. done.
      * intros Hp%is_mergeable_spec. congruence.
  - by econstructor.
  - by econstructor.
Qed.

Lemma run_pipes_complete fns i ctx w e log w' :
  spec_run fns i ctx w e log w' → run_pipes fns i ctx w = (e, log, w').
Proof.
  induction 1 as [| ? ? ? ? ? ? ? Hfn Hr
                  | ? ? ? ? ? ? ? ? ? ? ? ? Hfn Hr Hp Hm _ IH
                  | ? ? ? ? ? ? ? ? ? ? ? Hfn Hr Hnf Hnp _ IH
                  | ? ? ? ? ? ? ? ? Hfn Hr
                  | ? ? ? ? ? ? ? Hfn Hr]; cbn; try done;
    rewrite Hfn, Hr; try done.
  - assert (is_false result = false) as ->.
    { apply not_true_is_false. intros ->%is_false_spec.
      destruct Hp as (Ht & _). done. }
    apply is_mergeable_spec in Hp as Hp'. rewrite Hp'.
    rewrite (shallow_merge_unique _ _ _ _ (object_assign_merge ctx result) Hm).
    by rewrite IH.
  - assert (is_false result = false) as ->.
    { apply not_true_is_false. by intros ?%is_false_spec. }
    assert (is_mergeable result = false) as ->.
    { apply not_true_is_false. by intros ?%is_mergeable_spec. }
    by rewrite IH.
Qed.

Lemma steps_run_cons i ctx log :
  steps_run (StepRan i ctx :: log) = i :: steps_run log.
Proof. done. Qed.

Lemma spec_run_order fns i ctx w e log w' :
  spec_run fns i ctx w e log w' →
  ∃ k, k ≤ length fns ∧ steps_run log = seq i k
       ∧ (∀ c, e = Finished c → k = length fns)
       ∧ catches_run log = [].
Proof.
  induction 1 as [| | ? ? ? ? ? ? ? ? ? ? ? ? _ _ _ _ _ (k & Hk & Hs & Hf & Hc)
                  | ? ? ? ? ? ? ? ? ? ? ? _ _ _ _ _ (k & Hk & Hs & Hf & Hc) | |].
  - exists 0. split_and!; done.
  - exists 1. split_and!; [cbn; lia|done..].
  - exists (S k). split_and!; [cbn; lia|by rewrite steps_run_cons, Hs| |done].
    intros c ->. cbn. f_equal. by eapply Hf.
  - exists (S k). split_and!; [cbn; lia|by rewrite steps_run_cons, Hs| |done].
    intros c ->. cbn. f_equal. by eapply Hf.
  - exists 1. split_and!; [cbn; lia|done..].
  - exists 1. split_and!; [cbn; lia|done..].
Qed.

(** C8. The loop of a built handler is the state machine of the
    specification: steps are called in registration order, each on the
    world and the context its predecessor left; a result that is a
    non-null object and not an array is merged into the context, its keys
    overriding; [false] stops the run without an error and nothing after
    it is called or merged; any other result leaves the context as it was
    and the run goes on. *)
Theorem run_pipes_follows_spec (fns : list PipeFn) (i : nat)
    (ctx : FlowContext) (w : World) :
  (∀ e log w', run_pipes fns i ctx w = (e, log, w') ↔ spec_run fns i ctx w e log w')
  ∧ (∃ k, k ≤ length fns ∧ steps_run (run_pipes fns i ctx w).1.2 = seq i k
          ∧ (∀ c, (run_pipes fns i ctx w).1.1 = Finished c → k = length fns))
  ∧ (∀ result, plain_object result →
       shallow_merge ctx result (object_assign ctx result))
  ∧ (∀ fn rest r w1, fns = fn :: rest → fn ctx w = (r, w1) →
       await_call r = Normal (VBool false) →
       run_pipes fns i ctx w = (Stopped ctx, [StepRan i ctx], w1))
  ∧ (∀ flow data w0 c, createFlowContext data w0 = (Normal ctx, w) →
       pipeFn flow = fns → i = 0 →
       (run_pipes fns i ctx w).1.1 = Stopped c →
       build flow data w0 =
       (Normal tt, (run_pipes fns i ctx w).1.2, (run_pipes fns i ctx w).2)).
Proof.
  split_and!.
  - intros e log w'. split; last apply run_pipes_complete.
    intros H. pose proof (run_pipes_sound fns i ctx w) as Hs. by rewrite H in Hs.
  - destruct (spec_run_order _ _ _ _ _ _ _ (run_pipes_sound fns i ctx w))
      as (k & ? & ? & ? & _). by exists k.
  - intros result _. apply object_assign_merge.
  - intros fn rest r w1 -> Hfn Hr.
    apply run_pipes_complete. by econstructor.
  - intros flow data w0 c Hctx Hfns -> Hstop. unfold build. rewrite Hctx, Hfns.
    destruct (run_pipes fns 0 ctx w) as [[e log] w2]. cbn in *. by rewrite Hstop.
Qed.

(** The accumulating flow of the test suite, run on the payload value 10. *)
Lemma run_pipes_follows_spec_witness :
  spec_run (pipeFn accumulating_flow) 0 context10 world1_after_id
    (Finished (<["extra2" := VNumber 20]> (<["extra1" := VString "foo"]> context10)))
    [StepRan 0 context10; StepRan 1 (<["extra1" := VString "foo"]> context10)]
    world1_after_id.
Proof.
  apply (run_pipes_follows_spec (pipeFn accumulating_flow) 0 context10 world1_after_id).
  vm_compute. reflexivity.
Defined.

Lemma run_pipes_app pre post i ctx w c logp wk :
  run_pipes pre i ctx w = (Finished c, logp, wk) →
  run_pipes (pre ++ post) i ctx w =
  ((run_pipes post (i + length pre) c wk).1.1,
   logp ++ (run_pipes post (i + length pre) c wk).1.2,
   (run_pipes post (i + length pre) c wk).2).
Proof.
  revert i ctx w logp. induction pre as [|fn pre IH]; intros i ctx w logp.
  - cbn. intros [= -> <- ->]. rewrite Nat.add_0_r.
    by destruct (run_pipes post i c wk) as [[??]?].
  - cbn. destruct (fn ctx w) as [r w1].
    destruct (await_call r) as [result| |]; [|done..].
    destruct (is_false result); first done.
    set (ctx1 := if is_mergeable result then _ else _).
    specialize (IH (S i) ctx1 w1).
    destruct (run_pipes pre (S i) ctx1 w1) as [[e log] w2].
    intros [= -> <- ->]. rewrite (IH log eq_refl).
    by replace (S i + length pre) with (i + S (length pre)) by lia.
Qed.

Lemma steps_run_app l1 l2 : steps_run (l1 ++ l2) = steps_run l1 ++ steps_run l2.
Proof. unfold steps_run. apply omap_app. Qed.

Lemma catches_run_app l1 l2 : catches_run (l1 ++ l2) = catches_run l1 ++ catches_run l2.
Proof. unfold catches_run. apply omap_app. Qed.

Lemma await_call_thrown (r : CallResult) (err : Exn) :
  await_call r = Thrown err ↔ r = Threw err ∨ ∃ t, r = ReturnedPromise (Rejects t err).
Proof.
  split.
  - destruct r as [v|[t v|t e|]|e]; cbn; try done.
    + intros [= ->]. right. by exists t.
    + intros [= ->]. by left.
  - by intros [->|[t ->]].
Qed.

(** C9. When the steps before it have run through and a step throws or
    returns a promise that rejects, the loop ends there: the log holds the
    calls of the steps up to the failing one and of no later step.  With an
    error handler registered, it is called once, with the context the
    failing step was called on and with the error, and the handler built
    ends as that call does; with none registered the error is dropped and
    the handler built resolves. *)
Theorem build_routes_failure (flow : PerikanFlow) (data : JSValue)
    (w0 w1 wk w2 : World) (ctx0 c : FlowContext) (pre post : list PipeFn)
    (fn : PipeFn) (logp : list FlowEvent) (r : CallResult) (err : Exn) :
  createFlowContext data w0 = (Normal ctx0, w1) →
  pipeFn flow = pre ++ fn :: post →
  run_pipes pre 0 ctx0 w1 = (Finished c, logp, wk) →
  fn c wk = (r, w2) →
  (r = Threw err ∨ ∃ t, r = ReturnedPromise (Rejects t err)) →
  run_pipes (pipeFn flow) 0 ctx0 w1
  = (Failed c err, logp ++ [StepRan (length pre) c], w2)
  ∧ steps_run (logp ++ [StepRan (length pre) c]) = seq 0 (S (length pre))
  ∧ (∀ cfn, catchFn flow = Some cfn →
       build flow data w0 =
       (match await_call (cfn c err w2).1 with
        | Normal _ => Normal tt
        | Thrown e => Thrown e
        | Hangs => Hangs
        end,
        (logp ++ [StepRan (length pre) c]) ++ [CatchRan c err],
        (cfn c err w2).2)
       ∧ catches_run ((logp ++ [StepRan (length pre) c]) ++ [CatchRan c err])
         = [(c, err)]
       ∧ steps_run ((logp ++ [StepRan (length pre) c]) ++ [CatchRan c err])
         = seq 0 (S (length pre)))
  ∧ (catchFn flow = None →
       build flow data w0 = (Normal tt, logp ++ [StepRan (length pre) c], w2)
       ∧ catches_run (logp ++ [StepRan (length pre) c]) = []).
Proof.
  intros Hctx Hfns Hpre Hfn Hr%await_call_thrown.
  assert (run_pipes (pipeFn flow) 0 ctx0 w1
          = (Failed c err, logp ++ [StepRan (length pre) c], w2)) as Hrun.
  { rewrite Hfns, (run_pipes_app _ _ _ _ _ _ _ _ Hpre). cbn. by rewrite Hfn, Hr. }
  destruct (spec_run_order _ _ _ _ _ _ _ (run_pipes_sound pre 0 ctx0 w1))
    as (k & _ & Hs & Hk & Hc).
  rewrite Hpre in Hs, Hk, Hc. cbn [fst snd] in Hs, Hk, Hc.
  rewrite (Hk c eq_refl) in Hs.
  assert (steps_run (logp ++ [StepRan (length pre) c]) = seq 0 (S (length pre))) as Hsteps.
  { rewrite steps_run_app, Hs, seq_S. done. }
  assert (catches_run (logp ++ [StepRan (length pre) c]) = []) as Hcatch.
  { by rewrite catches_run_app, Hc. }
  split_and!; [done..| |].
  - intros cfn Hcfn. split_and!.
    + unfold build. rewrite Hctx, Hrun, Hcfn.
      by destruct (cfn c err w2) as [rc w3].
    + by rewrite catches_run_app, Hcatch.
    + rewrite steps_run_app, Hsteps. cbn. by rewrite app_nil_r.
  - intros Hnone. split; last done.
    unfold build. by rewrite Hctx, Hrun, Hnone.
Qed.

(** The flow of the test suite whose second step throws. *)
Lemma build_routes_failure_witness :
  createFlowContext value10 world1 = (Normal context10, world1_after_id)
  ∧ run_pipes [step_extra1] 0 context10 world1_after_id
    = (Finished (<["extra1" := VString "foo"]> context10),
       [StepRan 0 context10], world1_after_id)
  ∧ build failing_flow value10 world1
    = (Normal tt,
       ([StepRan 0 context10]
          ++ [StepRan 1 (<["extra1" := VString "foo"]> context10)])
         ++ [CatchRan (<["extra1" := VString "foo"]> context10) (Error_ "test error")],
       world1_after_id).
Proof.
  assert (createFlowContext value10 world1 = (Normal context10, world1_after_id))
    as Hctx by (vm_compute; reflexivity).
  assert (run_pipes [step_extra1] 0 context10 world1_after_id
          = (Finished (<["extra1" := VString "foo"]> context10),
             [StepRan 0 context10], world1_after_id))
    as Hpre by (vm_compute; reflexivity).
  split_and!; [exact Hctx|exact Hpre|].
  destruct (build_routes_failure failing_flow value10 world1 world1_after_id
              world1_after_id world1_after_id context10
              (<["extra1" := VString "foo"]> context10)
              [step_extra1] [step_double] step_throw [StepRan 0 context10]
              (Threw (Error_ "test error")) (Error_ "test error")
              Hctx eq_refl Hpre eq_refl (or_introl eq_refl))
    as (_ & _ & Hcatch & _).
  exact (proj1 (Hcatch spy eq_refl)).
Defined.

End FlowFacts.

(* ===================================================================== *)
(** * Properties of the bounded cache *)
(* ===================================================================== *)

Module CacheFacts.
Import LRUCache.
Local Open Scope Z_scope.

Section Cache.
Context {K V : Type} `{EqDecision K}.
Variable key_is_undefined : K → bool.
Variable value_is_undefined : V → bool.

Implicit Types (m : list (K * CacheItem V)) (c : LRUCache K V) (k key : K).

Local Abbreviation well_formed := (CacheSpec.well_formed key_is_undefined).
Local Abbreviation set_keeps := (CacheSpec.set_keeps key_is_undefined).

Lemma Forall_sublist {A} (P : A → Prop) (l1 l2 : list A) :
  sublist l1 l2 → Forall P l2 → Forall P l1.
Proof.
  rewrite !Forall_forall. intros Hsub H x Hx. apply H. by eapply elem_of_sublist.
Qed.

Lemma Forall_filter_keep {A} (P Q : A → Prop) `{∀ x, Decision (Q x)} (l : list A) :
  Forall P l → Forall P (filter Q l).
Proof. apply Forall_sublist, sublist_filter. Qed.

Lemma map_delete_keys key m : (map_delete key m).*1 = filter (λ k, k ≠ key) m.*1.
Proof.
  unfold map_delete. induction m as [|[k it] m IH]; first done.
  rewrite fmap_cons, !filter_cons. cbn [fst].
  case_decide; [rewrite fmap_cons; cbn [fst]|]; by rewrite IH.
Qed.

Lemma map_delete_absent key m : key ∉ (map_delete key m).*1.
Proof. rewrite map_delete_keys. intros [Hne _]%list_elem_of_filter. by apply Hne. Qed.

Lemma map_delete_id key m : key ∉ m.*1 → map_delete key m = m.
Proof.
  unfold map_delete. induction m as [|[k it] m IH]; first done.
  rewrite fmap_cons. intros [Hne Hin]%not_elem_of_cons. cbn [fst] in Hne.
  rewrite filter_cons. cbn [fst]. rewrite decide_True by done. by rewrite IH.
Qed.

Lemma map_delete_NoDup key m : NoDup m.*1 → NoDup (map_delete key m).*1.
Proof. rewrite map_delete_keys. apply NoDup_filter. Qed.

Lemma map_delete_length key m :
  NoDup m.*1 → key ∈ m.*1 → S (length (map_delete key m)) = length m.
Proof.
  unfold map_delete. induction m as [|[k it] m IH]; first by intros _ ?%elem_of_nil.
  rewrite fmap_cons. intros [Hk Hnd]%NoDup_cons Hin.
  rewrite filter_cons. cbn [fst] in *.
  case_decide as Hd.
  - cbn [length]. f_equal. apply IH; first done.
    apply elem_of_cons in Hin as [->|]; done.
  - subst k. cbn [length]. f_equal.
    fold (map_delete key m). by rewrite map_delete_id.
Qed.

Lemma map_delete_length_le key m : (length (map_delete key m) ≤ length m)%nat.
Proof. apply length_filter. Qed.

Lemma map_set_fresh key item m : key ∉ m.*1 → map_set key item m = m ++ [(key, item)].
Proof. intros Hn. unfold map_set, map_has. by rewrite bool_decide_eq_false_2. Qed.

Lemma map_get_app_fresh key item m :
  key ∉ m.*1 → map_get key (m ++ [(key, item)]) = Some item.
Proof.
  induction m as [|[k it] m IH]; cbn.
  - intros _. by rewrite decide_True.
  - intros [Hne Hin]%not_elem_of_cons. rewrite decide_False by done. by apply IH.
Qed.

Lemma map_get_None key m : map_get key m = None ↔ key ∉ m.*1.
Proof.
  induction m as [|[k it] m IH]; cbn.
  - split; [intros _; apply not_elem_of_nil|done].
  - case_decide as Hd.
    + subst. split; first done. intros []. apply list_elem_of_here.
    + rewrite IH, not_elem_of_cons.
      split; [intros ?; split; [by intros ->|done]|by intros [_ ?]].
Qed.

Lemma map_get_delete_ne key k m : k ≠ key → map_get k (map_delete key m) = map_get k m.
Proof.
  intros Hne. unfold map_delete. induction m as [|[k' it] m IH]; first done.
  rewrite filter_cons. cbn [fst]. case_decide as Hd; cbn [map_get].
  - by rewrite IH.
  - subst k'. rewrite decide_False by done. apply IH.
Qed.

Lemma map_get_delete_in key k m :
  k ∈ (map_delete key m).*1 → map_get k (map_delete key m) = map_get k m.
Proof.
  rewrite map_delete_keys. intros [Hne _]%list_elem_of_filter.
  by apply map_get_delete_ne.
Qed.

Lemma map_get_app_ne key k item m :
  k ≠ key → map_get k (m ++ [(key, item)]) = map_get k m.
Proof.
  intros Hne. induction m as [|[k' it] m IH]; cbn.
  - by rewrite decide_False.
  - by rewrite IH.
Qed.

Lemma delete_well_formed key c :
  well_formed c → well_formed (with_cache (map_delete key (cache c)) c).
Proof.
  intros (Hnd & Hlen & Hud). split_and!; cbn.
  - by apply map_delete_NoDup.
  - pose proof (map_delete_length_le key (cache c)). lia.
  - rewrite map_delete_keys. by apply Forall_filter_keep.
Qed.

Lemma refresh_cache key item m :
  NoDup m.*1 → map_get key m = Some item →
  (map_set key item (map_delete key m)).*1 = filter (λ k, k ≠ key) m.*1 ++ [key]
  ∧ length (map_set key item (map_delete key m)) = length m.
Proof.
  intros Hnd Hget.
  rewrite map_set_fresh by apply map_delete_absent.
  rewrite fmap_app, map_delete_keys, length_app. cbn. split; first done.
  rewrite <- (map_delete_length key m); [lia|done|].
  destruct (decide (key ∈ m.*1)) as [|Hn]; first done.
  apply map_get_None in Hn. congruence.
Qed.

Lemma get_well_formed key c clock r c1 clock1 :
  well_formed c → get key c clock = Some (r, c1, clock1) → well_formed c1.
Proof.
  intros Hwf. unfold get.
  destruct (map_get key (cache c)) as [item|] eqn:Hget; last by intros [= _ <- _].
  destruct (expired item clock) as [[[] clk]|]; cbn; [| |done].
  - intros [= _ <- _]. by apply delete_well_formed.
  - intros [= _ <- _]. destruct Hwf as (Hnd & Hlen & Hud).
    destruct (refresh_cache key item _ Hnd Hget) as [Hkeys Hl].
    split_and!; cbn.
    + rewrite Hkeys. apply NoDup_app. split_and!.
      * by apply NoDup_filter.
      * intros k [Hk _]%list_elem_of_filter ->%list_elem_of_singleton. done.
      * apply NoDup_singleton.
    + rewrite Hl. done.
    + rewrite Hkeys. apply Forall_app. split; first by apply Forall_filter_keep.
      apply Forall_singleton. rewrite Forall_forall in Hud. apply Hud.
      destruct (decide (key ∈ (cache c).*1)) as [|Hn]; first done.
      apply map_get_None in Hn. congruence.
Qed.

Lemma set_cache key v ttl_arg c clock c1 clock1 :
  set key_is_undefined key v ttl_arg c clock = Some (c1, clock1) →
  ∃ e, cache c1 = map_set key (mkItem v e) (set_keeps key c)
       ∧ capacity c1 = capacity c ∧ ttl c1 = ttl c.
Proof.
  unfold set. fold (set_keeps key c).
  destruct (match ttl_arg with Some t => Some t | None => ttl c end) as [t|].
  - case_bool_decide; cbn.
    + intros [= <- _]. by eexists.
    + destruct clock; cbn; first done. intros [= <- _]. by eexists.
  - cbn. intros [= <- _]. by eexists.
Qed.

Lemma set_keeps_spec key c :
  well_formed c → 0 < capacity c →
  (key ∉ (set_keeps key c).*1)
  ∧ NoDup (set_keeps key c).*1
  ∧ Z.of_nat (length (set_keeps key c)) < capacity c
  ∧ Forall (λ k, key_is_undefined k = false) (set_keeps key c).*1.
Proof.
  intros (Hnd & Hlen & Hud) Hpos. unfold set_keeps, map_has.
  case_bool_decide as Hin.
  - split_and!.
    + apply map_delete_absent.
    + by apply map_delete_NoDup.
    + pose proof (map_delete_length key _ Hnd Hin). lia.
    + rewrite map_delete_keys. by apply Forall_filter_keep.
  - destruct (Z.leb_spec (capacity c) (Z.of_nat (length (cache c)))) as [Hfull|Hroom];
      last by split_and!; [done..|lia|done].
    destruct (cache c) as [|[fk fit] m] eqn:Hc.
    { cbn in Hfull. lia. }
    cbn [head]. rewrite fmap_cons in Hud, Hin. cbn [fst] in Hud, Hin.
    apply Forall_cons in Hud as [Hfk Hud']. rewrite Hfk.
    apply not_elem_of_cons in Hin as [Hne Hin].
    pose proof (map_delete_length fk ((fk, fit) :: m) Hnd (list_elem_of_here _ _)) as Hl.
    split_and!.
    + rewrite map_delete_keys. intros [_ Hk]%list_elem_of_filter.
      rewrite fmap_cons in Hk. apply elem_of_cons in Hk as [?|?]; done.
    + by apply map_delete_NoDup.
    + cbn [length] in Hl, Hlen. lia.
    + rewrite map_delete_keys. apply Forall_filter_keep. rewrite fmap_cons.
      by constructor.
Qed.

Lemma set_well_formed key v ttl_arg c clock c1 clock1 :
  well_formed c → 0 < capacity c → key_is_undefined key = false →
  set key_is_undefined key v ttl_arg c clock = Some (c1, clock1) → well_formed c1.
Proof.
  intros Hwf Hpos Hkey (e & Hc & Hcap & _)%set_cache.
  destruct (set_keeps_spec key c Hwf Hpos) as (Hin & Hnd & Hlen & Hud).
  rewrite map_set_fresh in Hc by done.
  unfold well_formed. rewrite Hc, Hcap, fmap_app, length_app. cbn. split_and!.
  - apply NoDup_app. split_and!; [done| |apply NoDup_singleton].
    intros k Hk ->%list_elem_of_singleton. done.
  - lia.
  - apply Forall_app. split; first done. by apply Forall_singleton.
Qed.

Lemma sweep_sublist m clock kept clock1 :
  sweep m clock = Some (kept, clock1) → sublist kept m.
Proof.
  revert clock kept clock1. induction m as [|[k it] m IH]; intros clock kept clock1; cbn.
  - intros [= <- _]. constructor.
  - destruct (expired it clock) as [[gone clk]|]; cbn; last done.
    destruct (sweep m clk) as [[kept' clk']|] eqn:Hs; cbn; last done.
    intros [= <- _]. specialize (IH _ _ _ Hs).
    destruct gone; by constructor.
Qed.

Lemma sublist_well_formed c kept :
  well_formed c → sublist kept (cache c) → well_formed (with_cache kept c).
Proof.
  intros (Hnd & Hlen & Hud) Hsub.
  assert (sublist kept.*1 (cache c).*1) as Hsub' by by apply fmap_sublist.
  split_and!; cbn.
  - by eapply sublist_NoDup.
  - apply sublist_length in Hsub. lia.
  - by eapply Forall_sublist.
Qed.

Lemma run_op_well_formed (op : Op K V) c clock c1 clock1 :
  well_formed c → 0 < capacity c →
  (∀ k, stored_key op = Some k → key_is_undefined k = false) →
  run_op key_is_undefined op c clock = Some (c1, clock1) →
  well_formed c1 ∧ capacity c1 = capacity c.
Proof.
  intros Hwf Hpos Hkey. destruct op as [key|key v t|key|key| |]; cbn.
  - destruct (get key c clock) as [[[r c'] clk]|] eqn:Hg; cbn; last done.
    intros [= <- _]. split; first by eapply get_well_formed.
    unfold get in Hg. destruct (map_get key (cache c)); last by injection Hg as _ <- _.
    destruct (expired _ clock) as [[[] ?]|]; cbn in Hg; [| |done];
      by injection Hg as _ <- _.
  - intros Hs. split; first by eapply set_well_formed; eauto.
    by destruct (set_cache _ _ _ _ _ _ _ Hs) as (e & _ & -> & _).
  - unfold has. destruct (map_get key (cache c)); last by intros [= <- _].
    destruct (expired _ clock) as [[[] ?]|]; cbn; [| |done]; intros [= <- _]; last done.
    split; [by apply delete_well_formed|done].
  - intros [= <- _]. split; [by apply delete_well_formed|done].
  - intros [= <- _]. split; last done.
    destruct Hwf as (_ & Hlen & _). split_and!; cbn; [constructor|lia|constructor].
  - unfold size. destruct (sweep (cache c) clock) as [[kept clk]|] eqn:Hs; cbn; last done.
    intros [= <- _]. split; last done.
    eapply sublist_well_formed; first done. by eapply sweep_sublist.
Qed.

(** A cache never holds more entries than its capacity, and never the same
    key twice: this holds after any run of [get], [set], [has], [delete],
    [clear] and [size] on a cache the constructor built, as long as
    [undefined] is not used as a key; and the constructor refuses a
    capacity that is not positive. *)
Theorem cache_stays_within_capacity (capacity0 : Z) (ttl0 : option Z)
    (ops : list (Op K V)) (c0 c1 : LRUCache K V) (clock clock1 : SnowFlake.Clock) :
  new capacity0 ttl0 = Normal c0 →
  Forall (λ op, ∀ k, stored_key op = Some k → key_is_undefined k = false) ops →
  run_ops key_is_undefined ops c0 clock = Some (c1, clock1) →
  0 < capacity0
  ∧ Z.of_nat (length (cache c1)) ≤ capacity0
  ∧ NoDup (cache c1).*1.
Proof.
  unfold new. destruct (Z.leb_spec capacity0 0) as [|Hpos]; first done.
  intros [= <-] Hops Hrun. split; first done.
  assert (well_formed c1 ∧ capacity c1 = capacity0) as [(Hnd & Hlen & _) Hcap].
  { set (c0 := mk [] capacity0 ttl0) in *.
    assert (well_formed c0 ∧ capacity c0 = capacity0) as Hc0.
    { split; last done. split_and!; cbn; [constructor|lia|constructor]. }
    clearbody c0. revert c0 clock Hc0 Hrun.
    induction Hops as [|op ops Hop _ IH]; intros c0 clock [Hwf Hcap]; cbn.
    - by intros [= <- _].
    - destruct (run_op _ op c0 clock) as [[c' clk]|] eqn:Hop'; cbn; last done.
      destruct (run_op_well_formed op c0 clock c' clk) as [Hwf' Hcap']; [done|lia|done..|].
      apply IH. split; [done|congruence]. }
  split; [lia|done].
Qed.

Lemma set_keeps_sublist key c : sublist (set_keeps key c) (cache c).
Proof.
  unfold set_keeps, map_delete.
  destruct (map_has key (cache c)); first apply sublist_filter.
  destruct (capacity c <=? Z.of_nat (length (cache c))); last done.
  destruct (head (cache c)) as [[fk fit]|]; last done.
  destruct (key_is_undefined fk); [done|apply sublist_filter].
Qed.

Lemma set_keeps_absent key c : key ∉ (set_keeps key c).*1.
Proof.
  destruct (map_has key (cache c)) eqn:Hhas.
  - unfold set_keeps. rewrite Hhas. apply map_delete_absent.
  - apply bool_decide_eq_false in Hhas. intros Hin. apply Hhas.
    eapply elem_of_sublist; first done.
    apply fmap_sublist, set_keeps_sublist.
Qed.

Lemma set_result key v ttl_arg c clock c1 clock1 :
  set key_is_undefined key v ttl_arg c clock = Some (c1, clock1) →
  ∃ e, c1 = with_cache (set_keeps key c ++ [(key, mkItem v e)]) c
       ∧ match (match ttl_arg with Some t => Some t | None => ttl c end) with
         | Some t => if bool_decide (t = 0) then e = None ∧ clock1 = clock
                     else ∃ now, clock = now :: clock1 ∧ e = Some (now + t)
         | None => e = None ∧ clock1 = clock
         end.
Proof.
  unfold set. fold (set_keeps key c).
  pose proof (set_keeps_absent key c) as Hn.
  destruct (match ttl_arg with Some t => Some t | None => ttl c end) as [t|].
  - case_bool_decide; cbn.
    + intros [= <- <-]. eexists. by rewrite map_set_fresh.
    + destruct clock as [|now rest]; cbn; first done.
      intros [= <- <-]. eexists. rewrite map_set_fresh by done.
      split; first done. by exists now.
  - cbn. intros [= <- <-]. eexists. by rewrite map_set_fresh.
Qed.

Lemma get_last key item m cap t clock :
  key ∉ m.*1 →
  get key (mk (m ++ [(key, item)]) cap t) clock =
  '(gone, clock1) ← expired item clock;
  Some (if gone : bool
        then (None, mk m cap t, clock1)
        else (Some (value item), mk (m ++ [(key, item)]) cap t, clock1)).
Proof.
  intros Hn. unfold get. cbn [cache]. rewrite map_get_app_fresh by done.
  destruct (expired item clock) as [[gone clk]|]; cbn; last done.
  assert (map_delete key (m ++ [(key, item)]) = m) as ->.
  { unfold map_delete. rewrite filter_app, filter_cons, filter_nil. cbn [fst].
    rewrite decide_False by (by intros []). rewrite app_nil_r.
    by apply map_delete_id. }
  destruct gone; first done.
  by rewrite map_set_fresh.
Qed.

Lemma set_get_live (key : K) (v : V) (ttl_arg : option Z)
    (c c1 : LRUCache K V) (clock clock1 : SnowFlake.Clock) :
  set key_is_undefined key v ttl_arg c clock = Some (c1, clock1) →
  match (match ttl_arg with Some t => Some t | None => ttl c end) with
  | Some t =>
      if bool_decide (t = 0)
      then clock1 = clock ∧ ∀ later, get key c1 later = Some (Some v, c1, later)
      else ∃ now, clock = now :: clock1
           ∧ ∀ now' rest, now + t ≠ 0 →
               get key c1 (now' :: rest) =
               if bool_decide (now + t < now')
               then Some (None, with_cache (set_keeps key c) c1, rest)
               else Some (Some v, c1, rest)
  | None => clock1 = clock ∧ ∀ later, get key c1 later = Some (Some v, c1, later)
  end.
Proof.
  intros (e & -> & He)%set_result.
  pose proof (set_keeps_absent key c) as Hn.
  destruct (match ttl_arg with Some t => Some t | None => ttl c end) as [t|].
  - case_bool_decide as Ht.
    + destruct He as [-> ->]. split; first done. intros later.
      unfold with_cache. by rewrite get_last.
    + destruct He as (now & -> & ->). exists now. split; first done.
      intros now' rest Hnz. unfold with_cache. rewrite get_last by done.
      unfold expired. cbn [expiry]. rewrite bool_decide_eq_false_2 by done. cbn.
      by case_bool_decide.
  - destruct He as [-> ->]. split; first done. intros later.
    unfold with_cache. by rewrite get_last.
Qed.

Lemma has_last key item m cap t clock :
  key ∉ m.*1 →
  has key (mk (m ++ [(key, item)]) cap t) clock =
  '(gone, clock1) ← expired item clock;
  Some (if gone : bool
        then (false, mk m cap t, clock1)
        else (true, mk (m ++ [(key, item)]) cap t, clock1)).
Proof.
  intros Hn. unfold has. cbn [cache]. rewrite map_get_app_fresh by done.
  destruct (expired item clock) as [[gone clk]|]; cbn; last done.
  assert (map_delete key (m ++ [(key, item)]) = m) as ->; last by destruct gone.
  unfold map_delete. rewrite filter_app, filter_cons, filter_nil. cbn [fst].
  rewrite decide_False by (by intros []). rewrite app_nil_r.
  by apply map_delete_id.
Qed.

(** What is stored is read back: after [set(key, v, ttl)], a [get(key)]
    returns [v], a [has(key)] returns [true], and both leave the cache as
    it is, at every later reading of the clock when the effective time to
    live is absent or zero, and at every reading not past the expiry
    otherwise; at a reading past the expiry [get] returns [undefined],
    [has] returns [false], and the entry is gone. The effective time to
    live is the argument when one is given, zero included, and the default
    of the cache otherwise. *)
Theorem set_then_get (key : K) (v : V) (ttl_arg : option Z)
    (c c1 : LRUCache K V) (clock clock1 : SnowFlake.Clock) :
  set key_is_undefined key v ttl_arg c clock = Some (c1, clock1) →
  match (match ttl_arg with Some t => Some t | None => ttl c end) with
  | Some t =>
      if bool_decide (t = 0)
      then clock1 = clock
           ∧ ∀ later, get key c1 later = Some (Some v, c1, later)
                      ∧ has key c1 later = Some (true, c1, later)
      else ∃ now, clock = now :: clock1
           ∧ ∀ now' rest, now + t ≠ 0 →
               get key c1 (now' :: rest)
               = (if bool_decide (now + t < now')
                  then Some (None, with_cache (set_keeps key c) c1, rest)
                  else Some (Some v, c1, rest))
               ∧ has key c1 (now' :: rest)
                 = (if bool_decide (now + t < now')
                    then Some (false, with_cache (set_keeps key c) c1, rest)
                    else Some (true, c1, rest))
  | None => clock1 = clock
            ∧ ∀ later, get key c1 later = Some (Some v, c1, later)
                       ∧ has key c1 later = Some (true, c1, later)
  end.
Proof.
  intros Hset. pose proof (set_get_live _ _ _ _ _ _ _ Hset) as Hlive.
  destruct (set_result _ _ _ _ _ _ _ Hset) as (e & -> & He).
  pose proof (set_keeps_absent key c) as Hn.
  destruct (match ttl_arg with Some t => Some t | None => ttl c end) as [t|].
  - case_bool_decide as Ht.
    + destruct He as [-> ->], Hlive as [_ Hlive]. split; first done.
      intros later. split; first apply Hlive.
      unfold with_cache. by rewrite has_last.
    + destruct He as (now & -> & ->), Hlive as (now0 & [= <-] & Hlive).
      exists now. split; first done.
      intros now' rest Hnz. split; first by apply Hlive.
      unfold with_cache. rewrite has_last by done.
      unfold expired. cbn [expiry]. rewrite bool_decide_eq_false_2 by done. cbn.
      by case_bool_decide.
  - destruct He as [-> ->], Hlive as [_ Hlive]. split; first done.
    intros later. split; first apply Hlive.
    unfold with_cache. by rewrite has_last.
Qed.

Lemma filter_head_NoDup (k : K) (ks : list K) :
  NoDup (k :: ks) → filter (λ k', k' ≠ k) (k :: ks) = ks.
Proof.
  intros [Hk _]%NoDup_cons. rewrite filter_cons, decide_False by (by intros []).
  induction ks as [|k' ks IH]; first done.
  apply not_elem_of_cons in Hk as [Hne Hk].
  rewrite filter_cons, decide_True by done. by rewrite IH.
Qed.

(** Recency decides what leaves the cache. A [set] of a key that is
    present moves it to the end and evicts nothing; a [set] of a new key
    into a cache with room appends it; a [set] of a new key into a full
    cache evicts the first key, the least recently used one, and nothing
    else. A [get] that hits moves the key to the end, so the key just read
    is the last to be evicted. The entries of all other keys stay as they
    are. *)
Theorem set_evicts_least_recent (key : K) (v : V) (ttl_arg : option Z)
    (c c1 : LRUCache K V) (clock clock1 : SnowFlake.Clock) :
  well_formed c →
  set key_is_undefined key v ttl_arg c clock = Some (c1, clock1) →
  (cache c1).*1 =
    (if bool_decide (key ∈ (cache c).*1)
     then filter (λ k, k ≠ key) (cache c).*1
     else if bool_decide (Z.of_nat (length (cache c)) < capacity c)
          then (cache c).*1
          else tail (cache c).*1) ++ [key]
  ∧ (∀ k, k ≠ key → k ∈ (cache c1).*1 → map_get k (cache c1) = map_get k (cache c))
  ∧ (∀ k r c2 clock2 later, get k c later = Some (Some r, c2, clock2) →
       (cache c2).*1 = filter (λ k', k' ≠ k) (cache c).*1 ++ [k]).
Proof.
  intros (Hnd & Hlen & Hud) (e & -> & _)%set_result. cbn [cache with_cache].
  rewrite fmap_app. cbn [fmap list_fmap fst].
  assert ((set_keeps key c).*1 =
          if bool_decide (key ∈ (cache c).*1)
          then filter (λ k, k ≠ key) (cache c).*1
          else if bool_decide (Z.of_nat (length (cache c)) < capacity c)
               then (cache c).*1
               else tail (cache c).*1) as Hkeys.
  { unfold set_keeps, map_has. case_bool_decide as Hin; first apply map_delete_keys.
    destruct (Z.leb_spec (capacity c) (Z.of_nat (length (cache c)))) as [Hfull|Hroom].
    - rewrite bool_decide_eq_false_2 by lia.
      destruct (cache c) as [|[fk fit] m] eqn:Hc; first done.
      cbn [head]. rewrite fmap_cons in Hud, Hnd. cbn [fst] in Hud, Hnd.
      apply Forall_cons in Hud as [-> _].
      rewrite map_delete_keys, fmap_cons. cbn [fst tail].
      by apply filter_head_NoDup.
    - by rewrite bool_decide_eq_true_2 by lia. }
  split_and!.
  - by rewrite Hkeys.
  - intros k Hne Hk. rewrite map_get_app_ne by done.
    apply elem_of_app in Hk as [Hk|Hk%list_elem_of_singleton]; last done.
    revert Hk. unfold set_keeps.
    destruct (map_has key (cache c)); first apply map_get_delete_in.
    destruct (capacity c <=? Z.of_nat (length (cache c))); last done.
    destruct (head (cache c)) as [[fk fit]|]; last done.
    destruct (key_is_undefined fk); [done|apply map_get_delete_in].
  - intros k r c2 clock2 later. unfold get.
    destruct (map_get k (cache c)) as [item|] eqn:Hget; last done.
    destruct (expired item later) as [[[] clk]|]; cbn; [done| |done].
    intros [= _ <- _]. cbn [cache with_cache].
    by destruct (refresh_cache k item _ Hnd Hget).
Qed.

(** [getOrSet] memoizes: when the key is missing and the factory yields a
    value that is not [undefined], the value is stored and returned, and a
    later [getOrSet] of the key returns it without calling its factory,
    whatever that factory is: always when the effective time to live is
    absent or zero, and at every reading of the clock not past the expiry
    otherwise. *)
Theorem getOrSet_memoizes (key : K)
    (factory : LRUCache K V → SnowFlake.Clock
               → Completion V * LRUCache K V * SnowFlake.Clock)
    (ttl_arg : option Z) (v : V)
    (c c1 c2 c3 : LRUCache K V) (clock clock1 clock2 clock3 : SnowFlake.Clock) :
  get key c clock = Some (None, c1, clock1) →
  factory c1 clock1 = (Normal v, c2, clock2) →
  value_is_undefined v = false →
  set key_is_undefined key v ttl_arg c2 clock2 = Some (c3, clock3) →
  getOrSet key_is_undefined value_is_undefined key factory ttl_arg c clock
  = (Normal v, c3, clock3)
  ∧ ∀ factory' ttl',
      match (match ttl_arg with Some t => Some t | None => ttl c2 end) with
      | Some t =>
          if bool_decide (t = 0)
          then ∀ later,
                 getOrSet key_is_undefined value_is_undefined key factory' ttl' c3 later
                 = (Normal v, c3, later)
          else ∃ now, clock2 = now :: clock3
               ∧ ∀ now' rest, now + t ≠ 0 → now' ≤ now + t →
                   getOrSet key_is_undefined value_is_undefined key factory' ttl' c3
                     (now' :: rest)
                   = (Normal v, c3, rest)
      | None => ∀ later,
                 getOrSet key_is_undefined value_is_undefined key factory' ttl' c3 later
                 = (Normal v, c3, later)
      end.
Proof.
  intros Hget Hfac Hv Hset. split.
  - unfold getOrSet. by rewrite Hget, Hfac, Hset.
  - intros factory' ttl'. pose proof (set_get_live _ _ _ _ _ _ _ Hset) as Hlive.
    destruct (match ttl_arg with Some t => Some t | None => ttl c2 end) as [t|].
    + case_bool_decide.
      * destruct Hlive as [_ Hlive]. intros later. unfold getOrSet.
        rewrite Hlive. cbn. by rewrite Hv.
      * destruct Hlive as (now & -> & Hlive). exists now. split; first done.
        intros now' rest Hnz Hle. unfold getOrSet. rewrite Hlive by done.
        rewrite bool_decide_eq_false_2 by lia. cbn. by rewrite Hv.
    + destruct Hlive as [_ Hlive]. intros later. unfold getOrSet.
      rewrite Hlive. cbn. by rewrite Hv.
Qed.

(** What is deleted is gone: after [delete(key)], and after [clear()] for
    every key, [get] and [has] miss without reading the clock and leave the
    cache as it is; [delete] leaves the entries of the other keys alone,
    and it reports whether the key was stored, expired or not. *)
Theorem delete_then_miss (key : K) (c : LRUCache K V) (clock : SnowFlake.Clock) :
  get key (delete key c).2 clock = Some (None, (delete key c).2, clock)
  ∧ has key (delete key c).2 clock = Some (false, (delete key c).2, clock)
  ∧ (∀ k, get k (clear c) clock = Some (None, clear c, clock)
          ∧ has k (clear c) clock = Some (false, clear c, clock))
  ∧ (∀ k, k ≠ key → map_get k (cache (delete key c).2) = map_get k (cache c))
  ∧ ((delete key c).1 = true ↔ is_Some (map_get key (cache c))).
Proof.
  assert (map_get key (map_delete key (cache c)) = None) as Hgone.
  { apply map_get_None, map_delete_absent. }
  split_and!.
  - unfold get, delete. cbn [snd cache with_cache]. by rewrite Hgone.
  - unfold has, delete. cbn [snd cache with_cache]. by rewrite Hgone.
  - done.
  - intros k Hne. cbn. by apply map_get_delete_ne.
  - unfold delete, map_has. cbn [fst]. rewrite bool_decide_eq_true.
    rewrite <- not_eq_None_Some, map_get_None.
    split; [by intros ? ?|apply dec_stable].
Qed.

End Cache.

Lemma cache_stays_within_capacity_witness :
  new 2 None = Normal (mk [] 2 None : LRUCache Z JSValue)
  ∧ run_ops Parse.id_is_undefined
      [OpSet 1 (VString "a") None; OpSet 2 (VString "b") None;
       OpGet 1; OpSet 3 (VString "c") None] (mk [] 2 None) []
    = Some (mk [(1, mkItem (VString "a") None); (3, mkItem (VString "c") None)]
               2 None, [])
  ∧ Z.of_nat (length [(1, mkItem (VString "a") None);
                      (3, mkItem (VString "c") None)]) ≤ 2.
Proof.
  assert (run_ops Parse.id_is_undefined
            [OpSet 1 (VString "a") None; OpSet 2 (VString "b") None;
             OpGet 1; OpSet 3 (VString "c") None] (mk [] 2 None) []
          = Some (mk [(1, mkItem (VString "a") None); (3, mkItem (VString "c") None)]
                     2 None, [])) as Hrun by (vm_compute; reflexivity).
  split_and!; [reflexivity|exact Hrun|].
  refine (proj1 (proj2 (cache_stays_within_capacity Parse.id_is_undefined 2 None _ _ _ [] []
                          eq_refl _ Hrun))).
  repeat constructor.
Defined.

Lemma set_then_get_witness :
  set Parse.id_is_undefined 7 (VString "a") None cache100 [1000; 1050; 1200]
  = Some (cache100_a, [1050; 1200])
  ∧ get 7 cache100_a [1050; 1200] = Some (Some (VString "a"), cache100_a, [1200])
  ∧ get 7 cache100_a [1200] = Some (None, cache100, []).
Proof.
  assert (set Parse.id_is_undefined 7 (VString "a") None cache100 [1000; 1050; 1200]
          = Some (cache100_a, [1050; 1200])) as Hset by (vm_compute; reflexivity).
  split; first exact Hset.
  pose proof (set_then_get Parse.id_is_undefined _ _ _ _ _ _ _ Hset) as H.
  destruct H as (now & Hclk & H). injection Hclk as <-.
  split.
  - exact (proj1 (H 1050 [1200] ltac:(lia))).
  - exact (proj1 (H 1200 [] ltac:(lia))).
Defined.

Lemma set_evicts_least_recent_witness :
  set Parse.id_is_undefined 3 (VString "c") None
    (mk [(2, mkItem (VString "b") None); (1, mkItem (VString "a") None)] 2 None) []
  = Some (mk [(1, mkItem (VString "a") None); (3, mkItem (VString "c") None)] 2 None, [])
  ∧ [1; 3] = tail [2; 1] ++ [3].
Proof.
  assert (set Parse.id_is_undefined 3 (VString "c") None
            (mk [(2, mkItem (VString "b") None); (1, mkItem (VString "a") None)] 2 None) []
          = Some (mk [(1, mkItem (VString "a") None); (3, mkItem (VString "c") None)]
                     2 None, [])) as Hset by (vm_compute; reflexivity).
  split; first exact Hset.
  refine (proj1 (set_evicts_least_recent Parse.id_is_undefined _ _ _ _ _ _ _ _ Hset)).
  split_and!; cbn; [|lia|repeat constructor].
  apply NoDup_cons. split; first by intros ?%list_elem_of_singleton.
  apply NoDup_singleton.
Defined.

Lemma getOrSet_memoizes_witness :
  getOrSet Parse.id_is_undefined is_undefined 7
    (λ c clock, (Normal (VString "a"), c, clock)) None cache100 [1000; 1050]
  = (Normal (VString "a"), cache100_a, [1050])
  ∧ getOrSet Parse.id_is_undefined is_undefined 7
      (λ c clock, (Thrown TypeError, c, clock)) None cache100_a [1050]
    = (Normal (VString "a"), cache100_a, []).
Proof.
  destruct (getOrSet_memoizes Parse.id_is_undefined is_undefined 7
              (λ c clock, (Normal (VString "a"), c, clock)) None (VString "a")
              cache100 cache100 cache100 cache100_a
              [1000; 1050] [1000; 1050] [1000; 1050] [1050]
              eq_refl eq_refl eq_refl eq_refl) as [Hfirst Hnext].
  split; first exact Hfirst.
  destruct (Hnext (λ c clock, (Thrown TypeError, c, clock)) None)
    as (now & Hclk & H).
  injection Hclk as <-. exact (H 1050 [] ltac:(lia) ltac:(lia)).
Defined.

End CacheFacts.

(* ===================================================================== *)
(** * Properties of parsing with the result cache *)
(* ===================================================================== *)

Module ParseFacts.
Import Event Parse.
Local Open Scope Z_scope.

Section Library.
Variable parsed : PerikanEvent → JSValue → JSValue.

Lemma get_miss (key : Z) (c : ParseCache) (clock : SnowFlake.Clock) :
  LRUCache.map_get key (LRUCache.cache c) = None →
  LRUCache.get key c clock = Some (None, c, clock).
Proof. intros H. unfold LRUCache.get. by rewrite H. Qed.

(** The parse cache is keyed by the id alone. Once a candidate with id
    [key] has been parsed, every later candidate that carries the same id
    gets the result of the first one, whatever its own fields are, at each
    reading of the clock up to the expiry of the entry; past the expiry the
    later candidate is parsed afresh and its own result is returned. *)
Theorem safeParse_answers_from_cache (ev : PerikanEvent) (c : ParseCache)
    (d1 d2 : JSValue) (key t now : Z) (clock : SnowFlake.Clock) :
  _getCacheKey d1 = Some key →
  _getCacheKey d2 = Some key →
  LRUCache.map_get key (LRUCache.cache c) = None →
  LRUCache.ttl c = Some t → t ≠ 0 → now + t ≠ 0 →
  ∃ c1,
    safeParse parsed ev (Some c) d1 (now :: clock)
    = Some (schema_safeParse parsed ev d1, Some c1, clock)
    ∧ (∀ now' rest, now' ≤ now + t →
         safeParse parsed ev (Some c1) d2 (now' :: rest)
         = Some (schema_safeParse parsed ev d1, Some c1, rest))
    ∧ (∀ now' now'' rest, now + t < now' →
         ∃ c2, safeParse parsed ev (Some c1) d2 (now' :: now'' :: rest)
               = Some (schema_safeParse parsed ev d2, Some c2, rest)).
Proof.
  intros Hk1 Hk2 Hmiss Httl Ht Hnz.
  destruct (LRUCache.set id_is_undefined key (schema_safeParse parsed ev d1) None c
              (now :: clock)) as [[c1 clk]|] eqn:Hset.
  2: { unfold LRUCache.set in Hset. rewrite Httl in Hset.
       by rewrite bool_decide_eq_false_2 in Hset. }
  pose proof (CacheFacts.set_get_live _ _ _ _ _ _ _ _ Hset) as Hlive.
  pose proof (CacheFacts.set_result _ _ _ _ _ _ _ _ Hset) as (e & Hc1 & He).
  cbn in Hlive, He. rewrite Httl in Hlive, He.
  rewrite bool_decide_eq_false_2 in Hlive, He by done.
  destruct Hlive as (now0 & [= <- <-] & Hlive). clear He.
  exists c1. split_and!.
  - unfold safeParse. rewrite Hk1, get_miss by done.
    cbn -[LRUCache.set schema_safeParse]. by rewrite Hset.
  - intros now' rest Hle. unfold safeParse. rewrite Hk2, Hlive by done.
    by rewrite bool_decide_eq_false_2 by lia.
  - intros now' now'' rest Hlt. unfold safeParse. rewrite Hk2, Hlive by done.
    rewrite bool_decide_eq_true_2 by lia.
    cbn -[LRUCache.set schema_safeParse].
    unfold LRUCache.set. cbn [LRUCache.ttl LRUCache.with_cache].
    rewrite Hc1. cbn [LRUCache.ttl LRUCache.with_cache]. rewrite Httl.
    rewrite bool_decide_eq_false_2 by done. cbn. by eexists.
Qed.

Lemma parse_uncached (ev : PerikanEvent) (data : JSValue) (clock : SnowFlake.Clock) :
  parse parsed ev None data clock =
  (if validate ev data then Normal (parsed ev data) else Thrown (ZodError data),
   None, clock).
Proof.
  unfold parse, safeParse, schema_safeParse, validate.
  by destruct (_getCacheKey data), (eventSchema ev data).
Qed.

(** On a definition without a cache, [parseMany] returns one parsed value
    per candidate, in order, when every candidate is valid, and otherwise
    throws the validation error of the first invalid candidate; it reads
    no clock. *)
Theorem parseMany_stops_at_first_invalid (ev : PerikanEvent)
    (datas : list JSValue) (clock : SnowFlake.Clock) :
  parseMany parsed ev None datas clock =
  (match list_find (λ d, validate ev d = false) datas with
   | Some (_, d) => Thrown (ZodError d)
   | None => Normal (parsed ev <$> datas)
   end, None, clock).
Proof.
  induction datas as [|d datas IH]; first done.
  cbn [parseMany list_find]. rewrite parse_uncached.
  destruct (validate ev d) eqn:Hv.
  - rewrite decide_False by done. rewrite IH.
    by destruct (list_find _ datas) as [[i d']|].
  - by rewrite decide_True.
Qed.

End Library.

(** A valid envelope is parsed, then a tampered copy with the same id: the
    copy gets the success of the original, although it is not valid. *)
Lemma safeParse_answers_from_cache_witness :
  validate TestEvent tampered_envelope1 = false
  ∧ ∃ c1,
      safeParse parsed_as_is TestEvent (Some parse_cache0) envelope1
        [1704067200007]
      = Some (schema_safeParse parsed_as_is TestEvent envelope1, Some c1, [])
      ∧ (∀ now' rest, now' ≤ 1704067200007 + 300000 →
           safeParse parsed_as_is TestEvent (Some c1) tampered_envelope1 (now' :: rest)
           = Some (schema_safeParse parsed_as_is TestEvent envelope1, Some c1, rest))
      ∧ (∀ now' now'' rest, 1704067200007 + 300000 < now' →
           ∃ c2, safeParse parsed_as_is TestEvent (Some c1) tampered_envelope1
                   (now' :: now'' :: rest)
                 = Some (schema_safeParse parsed_as_is TestEvent tampered_envelope1,
                         Some c2, rest)).
Proof.
  split; first (vm_compute; reflexivity).
  apply (safeParse_answers_from_cache parsed_as_is TestEvent parse_cache0
           envelope1 tampered_envelope1 20975616 300000 1704067200007 []).
  - vm_compute. reflexivity.
  - vm_compute. reflexivity.
  - reflexivity.
  - reflexivity.
  - lia.
  - lia.
Defined.

End ParseFacts.

(* ===================================================================== *)
(** * The layout of an id *)
(* ===================================================================== *)

Module IdLayoutFacts.
Import SnowFlake.
Local Open Scope Z_scope.

(** An id can be taken apart again: for a worker id below 1024, the id
    [nextId] returns holds the milliseconds since the epoch above bit 22,
    the worker id in bits 12 to 21 and the sequence in the low 12 bits,
    where the milliseconds are those of the reading the call took. *)
Theorem nextId_fields (sf sf1 : SnowFlake) (clock clock1 : Clock) (id : Z) :
  0 ≤ workerId sf < 1024 →
  nextId sf clock = Some (id, sf1, clock1) →
  ∃ now, head clock = Some now
         ∧ Z.shiftr id 22 = now - epoch
         ∧ Z.land (Z.shiftr id 12) 1023 = workerId sf
         ∧ Z.land id 4095 = sequence sf1.
Proof.
  intros Hw (now & rest & -> & _ & -> & Hw1 & Hs)%SnowFlakeFacts.nextId_state.
  exists now. split; first done.
  rewrite SnowFlakeFacts.assemble_value by lia. rewrite Hw1.
  change 1023 with (Z.ones 10). change 4095 with (Z.ones 12).
  rewrite !Z.land_ones, !Z.shiftr_div_pow2 by done.
  change (2 ^ 22) with 4194304. change (2 ^ 12) with 4096. change (2 ^ 10) with 1024.
  split_and!.
  - symmetry. apply (Z.div_unique _ _ _ (workerId sf * 4096 + sequence sf1)); lia.
  - replace (((now - epoch) * 4194304 + workerId sf * 4096 + sequence sf1) / 4096)
      with ((now - epoch) * 1024 + workerId sf).
    + symmetry. apply (Z.mod_unique _ _ (now - epoch)); lia.
    + apply (Z.div_unique _ _ _ (sequence sf1)); lia.
  - symmetry. apply (Z.mod_unique _ _ ((now - epoch) * 1024 + workerId sf)); lia.
Qed.

Lemma nextId_fields_witness :
  nextId (new 5) [1704067200001; 1704067200002]
  = Some (4214784, mk 5 1704067200001 0, [1704067200002])
  ∧ Z.shiftr 4214784 22 = 1704067200001 - epoch
  ∧ Z.land (Z.shiftr 4214784 12) 1023 = 5.
Proof.
  assert (nextId (new 5) [1704067200001; 1704067200002]
          = Some (4214784, mk 5 1704067200001 0, [1704067200002])) as H
    by (vm_compute; reflexivity).
  split; first exact H.
  destruct (nextId_fields (new 5) _ _ _ _ ltac:(cbn; lia) H)
    as (now & [= <-] & Ht & Hw & _).
  split; [exact Ht|exact Hw].
Defined.

(** Generators of different workers never return the same id: whatever
    their states and clocks, two calls on generators whose worker ids
    differ and are both below 1024 return different ids. *)
Theorem nextId_differs_across_workers (sfa sfb sfa1 sfb1 : SnowFlake)
    (clocka clockb clocka1 clockb1 : Clock) (ida idb : Z) :
  0 ≤ workerId sfa < 1024 → 0 ≤ workerId sfb < 1024 →
  workerId sfa ≠ workerId sfb →
  nextId sfa clocka = Some (ida, sfa1, clocka1) →
  nextId sfb clockb = Some (idb, sfb1, clockb1) →
  ida ≠ idb.
Proof.
  intros Ha Hb Hne
    (na & ra & -> & _ & -> & Hwa & Hsa)%SnowFlakeFacts.nextId_state
    (nb & rb & -> & _ & -> & Hwb & Hsb)%SnowFlakeFacts.nextId_state.
  rewrite !SnowFlakeFacts.assemble_value by lia. rewrite Hwa, Hwb.
  intros Heq.
  assert ((na - epoch) * 1024 + workerId sfa = (nb - epoch) * 1024 + workerId sfb)
    as Hhi by lia.
  lia.
Qed.

Lemma nextId_differs_across_workers_witness :
  nextId (new 1) [1704067200001] = Some (4198400, mk 1 1704067200001 0, [])
  ∧ nextId (new 2) [1704067200001] = Some (4202496, mk 2 1704067200001 0, [])
  ∧ 4198400 ≠ 4202496.
Proof.
  assert (nextId (new 1) [1704067200001] = Some (4198400, mk 1 1704067200001 0, []))
    as H1 by (vm_compute; reflexivity).
  assert (nextId (new 2) [1704067200001] = Some (4202496, mk 2 1704067200001 0, []))
    as H2 by (vm_compute; reflexivity).
  split_and!; [exact H1|exact H2|].
  apply (nextId_differs_across_workers (new 1) (new 2) _ _ _ _ _ _ _ _
           ltac:(cbn; lia) ltac:(cbn; lia) ltac:(cbn; lia) H1 H2).
Defined.

End IdLayoutFacts.

(* ===================================================================== *)
(** * Properties of envelopes: what validation demands *)
(* ===================================================================== *)

Module EnvelopeFacts.
Import Event EnvelopeSpec.

Lemma z_object_Forall (shape : gmap string ZodType) (props : gmap string JSValue) :
  z_object shape (VObject props) = true ↔
  map_Forall (λ k s, s (default VUndefined (props !! k)) = true) shape.
Proof.
  unfold z_object. rewrite forallb_forall, map_Forall_to_list, Forall_forall.
  split.
  - intros H [k s] Hin. apply (H (k, s)). by apply list_elem_of_In.
  - intros H [k s] Hin. apply (H (k, s)). by apply list_elem_of_In.
Qed.

Lemma event_shape (ev : PerikanEvent) :
  extend PerikanEventDataSchema
    {[ "topic" := z_literal (topic ev); "payload" := payloadSchema ev ]}
  = <["id" := z_bigint]> (<["time" := z_number]>
      (<["topic" := z_literal (topic ev)]> (<["from" := z_number]>
        (<["to" := z_array z_number]> (<["tags" := z_array z_string]>
          (<["payload" := payloadSchema ev]> ∅)))))).
Proof. vm_compute. reflexivity. Qed.

(** The event schema on an object, field by field. *)
Lemma validate_object (ev : PerikanEvent) (props : gmap string JSValue) :
  validate ev (VObject props) = true ↔
  z_bigint (get_prop (VObject props) "id") = true
  ∧ z_number (get_prop (VObject props) "time") = true
  ∧ z_literal (topic ev) (get_prop (VObject props) "topic") = true
  ∧ z_number (get_prop (VObject props) "from") = true
  ∧ z_array z_number (get_prop (VObject props) "to") = true
  ∧ z_array z_string (get_prop (VObject props) "tags") = true
  ∧ payloadSchema ev (get_prop (VObject props) "payload") = true.
Proof.
  unfold validate, eventSchema. rewrite event_shape, z_object_Forall.
  rewrite !map_Forall_insert by (vm_compute; reflexivity).
  cbn [get_prop]. split.
  - by intros (? & ? & ? & ? & ? & ? & ? & _).
  - intros (? & ? & ? & ? & ? & ? & ?). by split_and!.
Qed.

(** An envelope is valid exactly when it is an object whose [id] is a
    bigint, whose [time] and [from] are numbers, whose [topic] is the topic
    of the definition, whose [to] is an array of numbers, whose [tags] is
    an array of strings and whose [payload] the payload schema accepts;
    other properties do not matter. *)
Theorem validate_fields (ev : PerikanEvent) (data : JSValue) :
  validate ev data = true ↔
  ∃ props, data = VObject props
    ∧ z_bigint (get_prop data "id") = true
    ∧ z_number (get_prop data "time") = true
    ∧ get_prop data "topic" = VString (topic ev)
    ∧ z_number (get_prop data "from") = true
    ∧ z_array z_number (get_prop data "to") = true
    ∧ z_array z_string (get_prop data "tags") = true
    ∧ payloadSchema ev (get_prop data "payload") = true.
Proof.
  destruct data as [| | | | | | |props|];
    try (split; [done|by intros (? & ? & _)]).
  rewrite validate_object.
  assert (∀ v, z_literal (topic ev) v = true ↔ v = VString (topic ev)) as Hlit.
  { intros v. destruct v; cbn; try done. rewrite bool_decide_eq_true.
    split; [by intros ->|by intros [= ->]]. }
  rewrite Hlit. split.
  - intros (? & ? & ? & ? & ? & ? & ?). by exists props.
  - by intros (? & _ & ? & ? & ? & ? & ? & ? & ?).
Qed.

Lemma coalesce_typed (s : ZodType) (v d : JSValue) :
  s d = true → s VUndefined = false → s VNull = false →
  s (coalesce v d) = nullish v || s v.
Proof. intros Hd Hu Hn. unfold coalesce. destruct v; cbn; try done. Qed.

(** The envelope [_buildEventData] returns, put to the event schema. *)
Lemma buildEventData_validate (ev : PerikanEvent) (payload options : JSValue)
    (w w' : World) (env : JSValue) :
  _buildEventData ev payload options w = (Normal env, w') →
  validate ev env = payloadSchema ev payload && options_typed options.
Proof.
  unfold _buildEventData, bind.
  destruct (nextId w) as [[id| |] w1]; [|done..].
  destruct (date_now w1) as [[time| |] w2]; [|done..].
  assert (spread (coalesce (opts_defaultTags ev) (VArray []))
          = Some (VString <$> default [] (Event.opts ev ≫= defaultTags))) as ->.
  { unfold opts_defaultTags. by destruct (Event.opts ev ≫= defaultTags). }
  unfold options_typed.
  destruct (spread (coalesce (opt_chain options "tags") (VArray [])))
    as [ctags|]; [|done].
  intros [= <- <-].
  match goal with |- validate ev (VObject ?m) = _ => set (props := m) end.
  assert (get_prop (VObject props) "from"
          = coalesce (opt_chain options "from")
              (VNumber (Perikan.workerId (perikan w2)))) as Hfrom by reflexivity.
  assert (get_prop (VObject props) "to"
          = coalesce (opt_chain options "to") (VArray [])) as Hto by reflexivity.
  assert (get_prop (VObject props) "tags"
          = VArray ((VString <$> default [] (Event.opts ev ≫= defaultTags)) ++ ctags))
    as Htags by reflexivity.
  assert (get_prop (VObject props) "payload" = payload) as Hpayload by reflexivity.
  assert (get_prop (VObject props) "topic" = VString (topic ev)) as Htopic
    by reflexivity.
  assert (get_prop (VObject props) "id" = VBigInt id) as Hid by reflexivity.
  assert (get_prop (VObject props) "time" = VNumber time) as Htime by reflexivity.
  assert (z_array z_string (get_prop (VObject props) "tags")
          = forallb z_string ctags) as Hstr.
  { rewrite Htags. cbn [z_array]. rewrite forallb_app.
    replace (forallb z_string (VString <$> default [] (Event.opts ev ≫= defaultTags)))
      with true; [done|].
    symmetry. apply forallb_forall.
    by intros x [s [-> _]]%list_elem_of_In%list_elem_of_fmap. }
  apply Bool.eq_iff_eq_true. rewrite validate_object, !andb_true_iff.
  rewrite Hstr, Hfrom, Hto, Hpayload, Htopic, Hid, Htime.
  rewrite <- (coalesce_typed (z_array z_number) (opt_chain options "to") (VArray []))
    by done.
  rewrite <- (coalesce_typed z_number (opt_chain options "from")
                (VNumber (Perikan.workerId (perikan w2)))) by done.
  cbn [z_bigint z_number z_literal]. rewrite bool_decide_eq_true_2 by done.
  tauto.
Qed.

(** An envelope built without validation satisfies the envelope schema
    exactly when the resolved payload conforms to the payload shape and
    the options are well typed: [from] absent or a number, [to] absent or
    an array of numbers, [tags] spreading into strings. *)
Theorem unsafeCreate_valid_iff (ev : PerikanEvent) (payloadOrOpts options0 : JSValue)
    (w w' : World) (env : JSValue) :
  unsafeCreate ev payloadOrOpts options0 w = (Normal env, w') →
  validate ev env
  = payloadSchema ev (_resolveArgs ev payloadOrOpts options0).1
    && options_typed (_resolveArgs ev payloadOrOpts options0).2.
Proof.
  unfold unsafeCreate.
  destruct (_resolveArgs ev payloadOrOpts options0) as [payload options].
  cbn [fst snd]. apply buildEventData_validate.
Qed.

(** [create] checks the payload and nothing else: the envelope it returns
    satisfies the envelope schema exactly when the options are well typed.
    An envelope created with, say, a string for [from] is returned without
    an error and is later dropped by [emit]. *)
Theorem create_valid_iff_options_typed (ev : PerikanEvent)
    (payloadOrOpts options0 : JSValue) (w w' : World) (env : JSValue) :
  create ev payloadOrOpts options0 w = (Normal env, w') →
  validate ev env = options_typed (_resolveArgs ev payloadOrOpts options0).2.
Proof.
  unfold create.
  destruct (_resolveArgs ev payloadOrOpts options0) as [payload options].
  cbn [snd]. unfold bind at 1, parsePayload.
  destruct (payloadSchema ev payload) eqn:Hp; last done.
  cbn. intros Hb. by rewrite (buildEventData_validate _ _ _ _ _ _ Hb), Hp.
Qed.

(** The test event created without validation from an empty payload. *)
Lemma unsafeCreate_valid_iff_witness :
  unsafeCreate TestEvent (VObject ∅) VUndefined world1
  = (Normal tampered_envelope1, world1_after_create)
  ∧ validate TestEvent tampered_envelope1
    = payloadSchema TestEvent (_resolveArgs TestEvent (VObject ∅) VUndefined).1
      && options_typed (_resolveArgs TestEvent (VObject ∅) VUndefined).2.
Proof.
  assert (unsafeCreate TestEvent (VObject ∅) VUndefined world1
          = (Normal tampered_envelope1, world1_after_create)) as H
    by (vm_compute; reflexivity).
  split; first exact H.
  exact (unsafeCreate_valid_iff TestEvent _ _ _ _ _ H).
Defined.

(** The test event created with a string for [from]: an envelope comes
    back, and it is not valid. *)
Lemma create_valid_iff_options_typed_witness :
  create TestEvent (VObject {[ "foo" := VString "bar" ]})
    (VObject {[ "from" := VString "x" ]}) world1
  = (Normal envelope_from_string, world1_after_create)
  ∧ validate TestEvent envelope_from_string
    = options_typed
        (_resolveArgs TestEvent (VObject {[ "foo" := VString "bar" ]})
           (VObject {[ "from" := VString "x" ]})).2
  ∧ validate TestEvent envelope_from_string = false.
Proof.
  assert (create TestEvent (VObject {[ "foo" := VString "bar" ]})
            (VObject {[ "from" := VString "x" ]}) world1
          = (Normal envelope_from_string, world1_after_create)) as H
    by (vm_compute; reflexivity).
  split_and!; [exact H| |vm_compute; reflexivity].
  exact (create_valid_iff_options_typed TestEvent _ _ _ _ _ H).
Defined.

End EnvelopeFacts.

(* ===================================================================== *)
(** * Properties of the bus: who is called and how long [emit] waits *)
(* ===================================================================== *)

Module DeliveryFacts.
Import Event Bus.
Local Open Scope Z_scope.

Lemma new_maxTimeout (options : PerikanInternalBusOptions) :
  maxTimeout (new options)
  = match opt_maxTimeout options with
    | Some ms => if 0 <? ms then ms else 0
    | None => 0
    end.
Proof. unfold new. by destruct (opt_maxTimeout options). Qed.

Lemma with_timeout_le (bus : PerikanLocalBus) (task : Fate JSValue) :
  0 < maxTimeout bus →
  ∃ t, settles_at (with_timeout bus task) = Some t ∧ t ≤ maxTimeout bus.
Proof.
  intros Hpos. unfold with_timeout, race, reject_after.
  rewrite (proj2 (Z.ltb_lt _ _) Hpos). cbn.
  destruct (settles_at task) as [tp|] eqn:Hs; cbn; last by eexists.
  destruct (tp <=? maxTimeout bus) eqn:Hle; cbn.
  - rewrite Hs. exists tp. split; first done. by apply Z.leb_le.
  - by eexists.
Qed.

Lemma foldr_max_bounds (ts : list Z) (b : Z) :
  0 ≤ b → Forall (λ t, t ≤ b) ts → 0 ≤ foldr Z.max 0 ts ≤ b.
Proof.
  intros Hb. induction 1 as [|t ts Ht _ IH]; cbn; lia.
Qed.

Lemma allSettled_time {A} (ps : list (Fate A)) :
  match allSettled ps, mapM settles_at ps with
  | Fulfills T _, Some ts => T = foldr Z.max 0 ts
  | Never, None => True
  | _, _ => False
  end.
Proof.
  unfold allSettled.
  destruct (mapM settles_at ps) as [ts|] eqn:Hm; last done.
  destruct (mapM outcome ps) as [os|] eqn:Ho; first done.
  apply mapM_None in Ho. apply mapM_Some in Hm.
  apply Exists_exists in Ho as (p & Hp & Hn).
  destruct (proj1 (list_elem_of_lookup _ _) Hp) as [i Hi].
  destruct (Forall2_lookup_l _ _ _ _ _ Hm Hi) as (t & _ & Ht).
  by destruct p.
Qed.

Section WithHandlers.
Variable handler_code : HandlerRef → JSValue → World → CallResult * World.

(** Who gets an envelope. For an envelope that passes validation, the
    handlers registered under the topic are all called when [to] is empty
    or holds the worker id of the bus, at any position and next to any
    other ids; otherwise none is called. *)
Theorem emit_delivers_iff_addressed (bus : PerikanLocalBus) (ev : PerikanEvent)
    (data : JSValue) (w : World) (items : list JSValue) :
  validate ev data = true →
  get_prop data "to" = VArray items →
  (items = [] ∨ VNumber (workerId bus) ∈ items →
     (emit handler_code bus ev data w).1.2.*1 = registered w (topic ev))
  ∧ (items ≠ [] ∧ VNumber (workerId bus) ∉ items →
     (emit handler_code bus ev data w).1.2 = []).
Proof.
  intros Hv Hto.
  assert (accepts (get_prop data "to") (workerId bus)
          = Some (bool_decide (length items = 0%nat)
                  || existsb (λ v, match v with
                                   | VNumber n => bool_decide (n = workerId bus)
                                   | _ => false
                                   end) items)) as Ha by (by rewrite Hto).
  split.
  - intros Hin. apply EmitFacts.emit_delivered; first done.
    rewrite Ha. f_equal. apply orb_true_iff.
    destruct Hin as [->|Hin]; first by left.
    right. apply existsb_exists. exists (VNumber (workerId bus)).
    split; first by apply list_elem_of_In.
    by apply bool_decide_eq_true.
  - intros [Hne Hnot]. rewrite EmitFacts.emit_filtered; [done..|].
    rewrite Ha. f_equal. apply orb_false_iff. split.
    + apply bool_decide_eq_false. by destruct items.
    + apply not_true_is_false. intros (v & Hin & Hv')%existsb_exists.
      destruct v; try done. apply bool_decide_eq_true in Hv' as ->.
      by apply Hnot, list_elem_of_In.
Qed.

(** A bus constructed without [maxTimeout], or with one that is zero or
    negative, puts no bound on its handlers: for an envelope that passes
    validation and the worker filter, [emit] resolves at the instant the
    last of the promises of the handlers settles, and it never resolves
    when one of them never settles. *)
Theorem emit_without_timeout_waits (options : PerikanInternalBusOptions)
    (ev : PerikanEvent) (data : JSValue) (w : World) :
  (∀ ms, opt_maxTimeout options = Some ms → ms ≤ 0) →
  validate ev data = true →
  accepts (get_prop data "to") (workerId (new options)) = Some true →
  (emit handler_code (new options) ev data w).1.1
  = match mapM settles_at (emit handler_code (new options) ev data w).1.2.*2 with
    | Some ts => Fulfills (foldr Z.max 0 ts) tt
    | None => Never
    end.
Proof.
  intros Hopt Hv Ha.
  assert (maxTimeout (new options) = 0) as Hmax.
  { rewrite new_maxTimeout. destruct (opt_maxTimeout options) as [ms|]; last done.
    specialize (Hopt ms eq_refl). destruct (0 <? ms) eqn:E; last done.
    apply Z.ltb_lt in E. lia. }
  rewrite EmitFacts.emit_fate by done.
  set (tasks := (emit handler_code (new options) ev data w).1.2.*2).
  assert (with_timeout (new options) <$> tasks = tasks) as ->.
  { rewrite <- (list_fmap_id tasks) at 2. apply list_fmap_ext.
    intros i task _. unfold with_timeout. by rewrite Hmax. }
  pose proof (allSettled_time tasks) as Ht.
  destruct (allSettled tasks) as [T os|T e|], (mapM settles_at tasks) as [ts|];
    try done.
  by subst T.
Qed.

(** A bus constructed with a positive [maxTimeout] resolves every [emit]
    within that many milliseconds, whatever the envelope and whatever the
    handlers do. *)
Theorem emit_resolves_within_timeout (options : PerikanInternalBusOptions)
    (ms : Z) (ev : PerikanEvent) (data : JSValue) (w : World) :
  opt_maxTimeout options = Some ms → 0 < ms →
  ∃ T, (emit handler_code (new options) ev data w).1.1 = Fulfills T tt
       ∧ 0 ≤ T ≤ ms.
Proof.
  intros Hopt Hpos.
  assert (maxTimeout (new options) = ms) as Hmax.
  { rewrite new_maxTimeout, Hopt. by rewrite (proj2 (Z.ltb_lt _ _) Hpos). }
  destruct (validate ev data) eqn:Hv; cycle 1.
  { rewrite EmitFacts.emit_invalid by done. exists 0. split; [done|lia]. }
  destruct (EmitFacts.validate_accepts ev data (workerId (new options)) Hv)
    as [[] Ha]; cycle 1.
  { rewrite EmitFacts.emit_filtered by done. exists 0. split; [done|lia]. }
  rewrite EmitFacts.emit_fate by done.
  set (tasks := (emit handler_code (new options) ev data w).1.2.*2).
  pose proof (allSettled_time (with_timeout (new options) <$> tasks)) as Ht.
  destruct (mapM settles_at (with_timeout (new options) <$> tasks)) as [ts|] eqn:Hm.
  - destruct (allSettled _) as [T os|T e|]; [|done..].
    exists T. split; first done. subst T.
    apply foldr_max_bounds; first lia.
    apply mapM_Some in Hm. apply Forall_forall. intros t Hin.
    destruct (proj1 (list_elem_of_lookup _ _) Hin) as [i Hi].
    destruct (Forall2_lookup_r _ _ _ _ _ Hm Hi) as (p & Hp & Hs).
    apply list_elem_of_lookup_2, list_elem_of_fmap in Hp as (task & -> & _).
    destruct (with_timeout_le (new options) task) as (t' & Ht' & Hle); first lia.
    rewrite Hmax in Hle. congruence.
  - exfalso. apply mapM_None in Hm. apply Exists_exists in Hm as (p & Hp & Hn).
    apply list_elem_of_fmap in Hp as (task & -> & _).
    destruct (with_timeout_le (new options) task) as (t' & Ht' & _); first lia.
    congruence.
Qed.

End WithHandlers.

(** An envelope addressed to the workers 2 and 1, on the bus of worker 1. *)
Lemma emit_delivers_iff_addressed_witness :
  validate TestEvent (envelope_to [VNumber 2; VNumber 1]) = true
  ∧ (emit test_handlers bus1 TestEvent (envelope_to [VNumber 2; VNumber 1])
       two_subscribers.2).1.2.*1
    = registered two_subscribers.2 (topic TestEvent).
Proof.
  assert (validate TestEvent (envelope_to [VNumber 2; VNumber 1]) = true) as Hv
    by (vm_compute; reflexivity).
  split; first exact Hv.
  refine (proj1 (emit_delivers_iff_addressed test_handlers bus1 TestEvent
                   (envelope_to [VNumber 2; VNumber 1]) two_subscribers.2
                   [VNumber 2; VNumber 1] Hv eq_refl) _).
  right. apply elem_of_cons. right. apply list_elem_of_here.
Defined.

(** The broadcast of the test suite on a bus without a timeout: the slow
    handler settles after 50 ms, and so does [emit]. *)
Lemma emit_without_timeout_waits_witness :
  validate TestEvent (envelope_to []) = true
  ∧ (emit test_handlers (new (mkOptions (Some 1) None)) TestEvent (envelope_to [])
       two_subscribers.2).1.1
    = match mapM settles_at
              (emit test_handlers (new (mkOptions (Some 1) None)) TestEvent
                 (envelope_to []) two_subscribers.2).1.2.*2 with
      | Some ts => Fulfills (foldr Z.max 0 ts) tt
      | None => Never
      end
  ∧ (emit test_handlers (new (mkOptions (Some 1) None)) TestEvent (envelope_to [])
       two_subscribers.2).1.1 = Fulfills 50 tt.
Proof.
  assert (validate TestEvent (envelope_to []) = true) as Hv
    by (vm_compute; reflexivity).
  split_and!; [exact Hv| |vm_compute; reflexivity].
  apply (emit_without_timeout_waits test_handlers (mkOptions (Some 1) None)
           TestEvent (envelope_to []) two_subscribers.2).
  - intros ms. cbn. discriminate.
  - exact Hv.
  - vm_compute. reflexivity.
Defined.

(** The same broadcast under a timeout of 10 ms. *)
Lemma emit_resolves_within_timeout_witness :
  ∃ T, (emit test_handlers (new (mkOptions (Some 1) (Some 10))) TestEvent
          (envelope_to []) two_subscribers.2).1.1 = Fulfills T tt
       ∧ 0 ≤ T ≤ 10.
Proof.
  apply (emit_resolves_within_timeout test_handlers (mkOptions (Some 1) (Some 10)) 10
           TestEvent (envelope_to []) two_subscribers.2).
  - reflexivity.
  - lia.
Defined.

End DeliveryFacts.

(* ===================================================================== *)
(** * Properties of the bus: subscribing and unsubscribing *)
(* ===================================================================== *)

Module SubscriptionFacts.
Import Event Bus RegistrySpec SubscriptionSpec Commit.

Lemma set_delete_absent h hs : h ∉ hs → set_delete h hs = hs.
Proof.
  unfold set_delete. induction hs as [|x hs IH]; first done.
  intros [Hx Hhs]%not_elem_of_cons.
  rewrite filter_cons_True by done. by rewrite IH.
Qed.

Lemma set_delete_add h hs : h ∉ hs → set_delete h (set_add h hs) = hs.
Proof.
  intros Hnot. unfold set_add. rewrite bool_decide_eq_false_2 by done.
  unfold set_delete. rewrite filter_app, filter_cons_False by (by intros []).
  rewrite filter_nil, app_nil_r. by apply set_delete_absent.
Qed.

Lemma set_add_idemp h hs : set_add h (set_add h hs) = set_add h hs.
Proof.
  unfold set_add at 1. rewrite bool_decide_eq_true_2; first done.
  unfold set_add. case_bool_decide; first done. set_solver.
Qed.

Lemma set_delete_idemp h hs : set_delete h (set_delete h hs) = set_delete h hs.
Proof.
  apply set_delete_absent. unfold set_delete.
  rewrite list_elem_of_filter. by intros [? _].
Qed.

(** What [on] does to the handlers of each topic. *)
Lemma registered_on w us ev h t :
  registry_inv w us →
  registered (on ev h w).2 t
  = if bool_decide (t = topic ev) then set_add h (registered w t)
    else registered w t.
Proof.
  intros [Hne Hinj _ _]. unfold registered.
  destruct (handlersMap w !! topic ev) as [r|] eqn:Hr.
  - rewrite (RegistryFacts.on_existing _ _ _ _ Hr). cbn.
    case_bool_decide as Ht.
    + subst t. rewrite Hr, lookup_insert_eq. done.
    + destruct (handlersMap w !! t) as [r'|] eqn:Hr'; last done.
      rewrite lookup_insert_ne; first done.
      intros ->. by destruct Ht, (Hinj _ _ _ Hr Hr').
  - rewrite (RegistryFacts.on_fresh _ _ _ Hr). cbn.
    case_bool_decide as Ht.
    + subst t. by rewrite Hr, !lookup_insert_eq.
    + rewrite lookup_insert_ne by done.
      destruct (handlersMap w !! t) as [r'|] eqn:Hr'; last done.
      rewrite lookup_insert_ne; first done.
      intros <-. destruct (Hne _ _ Hr') as (hs & Hs & _).
      by rewrite RegistryFacts.fresh_set_unallocated in Hs.
Qed.

Lemma unsubscribe_spent u w :
  handlersMap w !! captured_topic u = None →
  sets w !! captured_handlers u = Some [] →
  unsubscribe u w = w.
Proof.
  intros Hm Hs. unfold unsubscribe. rewrite Hs. cbn.
  destruct w as [c p m s v]. cbn in *.
  unfold set_handlersMap, set_sets. cbn.
  by rewrite insert_id, delete_id.
Qed.

(** What calling a closure in order does to the handlers of each topic. *)
Lemma registered_unsubscribe w us u t :
  registry_inv w us → u ∈ us → in_order u w →
  registered (unsubscribe u w) t
  = if bool_decide (t = captured_topic u)
    then set_delete (captured_handler u) (registered w t)
    else registered w t.
Proof.
  intros [Hne Hinj Hal Htop] Hu [Hlive|[Hm Hs]].
  - unfold registered, unsubscribe.
    destruct (Hne _ _ Hlive) as (hs & Hs & _). rewrite Hs.
    set (hs1 := set_delete (captured_handler u) hs).
    case_bool_decide as Hlen; cbn.
    + case_bool_decide as Ht.
      * subst t. rewrite lookup_delete_eq, Hlive, Hs. cbn -[set_delete].
        symmetry. by apply nil_length_inv.
      * rewrite lookup_delete_ne by done.
        destruct (handlersMap w !! t) as [r'|] eqn:Hr'; last done.
        rewrite lookup_insert_ne; first done.
        intros Heq. subst r'. by destruct Ht, (Hinj _ _ _ Hlive Hr').
    + case_bool_decide as Ht.
      * subst t. by rewrite Hlive, lookup_insert_eq, Hs.
      * destruct (handlersMap w !! t) as [r'|] eqn:Hr'; last done.
        rewrite lookup_insert_ne; first done.
        intros Heq. subst r'. by destruct Ht, (Hinj _ _ _ Hlive Hr').
  - rewrite unsubscribe_spent by done. case_bool_decide as Ht; last done.
    subst t. unfold registered. by rewrite Hm.
Qed.

Lemma in_order_unsubscribe w us u u' :
  registry_inv w us → u ∈ us → u' ∈ us → in_order u w → in_order u' w →
  in_order u' (unsubscribe u w).
Proof.
  intros [Hne Hinj Hal Htop] Hu Hu' [Hlive|[Hm Hs]] Ho';
    last by rewrite unsubscribe_spent.
  unfold unsubscribe.
  destruct (Hne _ _ Hlive) as (hs & Hs & _). rewrite Hs.
  set (hs1 := set_delete (captured_handler u) hs).
  assert (captured_handlers u' = captured_handlers u →
          handlersMap w !! captured_topic u' = Some (captured_handlers u')) as Hsame.
  { intros Heq. destruct Ho' as [?|[Hm' _]]; first done.
    rewrite <- Heq in Hlive.
    rewrite (Htop u' _ Hu' Hlive) in Hlive. congruence. }
  case_bool_decide as Hlen; unfold in_order; cbn.
  - destruct (decide (captured_topic u' = captured_topic u)) as [Heq|Hneq].
    + right. rewrite Heq, lookup_delete_eq. split; first done.
      destruct Ho' as [Hl'|[Hm' _]]; last congruence.
      rewrite Heq, Hlive in Hl'. injection Hl' as <-.
      rewrite lookup_insert_eq. f_equal. by apply nil_length_inv.
    + rewrite lookup_delete_ne by done.
      destruct Ho' as [Hl'|[Hm' Hs']]; first by left.
      right. split; first done. rewrite lookup_insert_ne; first done.
      intros Heq. symmetry in Heq. specialize (Hsame Heq). congruence.
  - destruct Ho' as [Hl'|[Hm' Hs']]; first by left.
    right. split; first done. rewrite lookup_insert_ne; first done.
    intros Heq. symmetry in Heq. specialize (Hsame Heq). congruence.
Qed.

Lemma live_on w ev h u :
  handlersMap w !! captured_topic u = Some (captured_handlers u) →
  handlersMap (on ev h w).2 !! captured_topic u = Some (captured_handlers u).
Proof.
  intros Hl.
  destruct (handlersMap w !! topic ev) as [r|] eqn:Hr.
  - by rewrite (RegistryFacts.on_existing _ _ _ _ Hr).
  - rewrite (RegistryFacts.on_fresh _ _ _ Hr). cbn.
    rewrite lookup_insert_ne; first done. intros Heq. congruence.
Qed.

Lemma on_live w ev h :
  handlersMap (on ev h w).2 !! captured_topic (on ev h w).1
  = Some (captured_handlers (on ev h w).1).
Proof.
  destruct (handlersMap w !! topic ev) as [r|] eqn:Hr.
  - by rewrite (RegistryFacts.on_existing _ _ _ _ Hr).
  - rewrite (RegistryFacts.on_fresh _ _ _ Hr). cbn. by rewrite lookup_insert_eq.
Qed.

Lemma registry_inv_weaken w us us' :
  (∀ u, u ∈ us' → u ∈ us) → registry_inv w us → registry_inv w us'.
Proof. intros Hsub [Hne Hinj Hal Htop]. split; eauto. Qed.

(** [on] adds the handler at the end of the handlers of its topic unless
    the handler is there already, and leaves every other topic alone. *)
Theorem on_subscribes_once (w : World) (us : list Unsubscribe)
    (ev : PerikanEvent) (h : HandlerRef) :
  reachable w us →
  ∀ t, registered (on ev h w).2 t
       = if bool_decide (t = topic ev)
         then (if bool_decide (h ∈ registered w t) then registered w t
               else registered w t ++ [h])
         else registered w t.
Proof.
  intros Hinv%RegistryFacts.reachable_inv t.
  by rewrite (registered_on w us).
Qed.

(** A closure whose [Set] is still the one registered under its topic
    removes its handler from that topic, and from no other, when called. *)
Theorem unsubscribe_removes_handler (w : World) (us : list Unsubscribe)
    (u : Unsubscribe) :
  reachable w us → u ∈ us →
  handlersMap w !! captured_topic u = Some (captured_handlers u) →
  (∀ t, registered (unsubscribe u w) t
        = if bool_decide (t = captured_topic u)
          then filter (λ h', h' ≠ captured_handler u) (registered w t)
          else registered w t)
  ∧ captured_handler u ∉ registered (unsubscribe u w) (captured_topic u).
Proof.
  intros Hinv%RegistryFacts.reachable_inv Hu Hlive.
  assert (∀ t, registered (unsubscribe u w) t
               = if bool_decide (t = captured_topic u)
                 then filter (λ h', h' ≠ captured_handler u) (registered w t)
                 else registered w t) as Hreg.
  { intros t. apply (registered_unsubscribe w us); [done..|by left]. }
  split; first done.
  rewrite Hreg, bool_decide_eq_true_2 by done.
  rewrite list_elem_of_filter. by intros [? _].
Qed.

Lemma subscribe_each_spec events h w us :
  registry_inv w us →
  registry_inv (subscribe_each events h w).2 ((subscribe_each events h w).1 ++ us)
  ∧ (∀ t, registered (subscribe_each events h w).2 t
          = if bool_decide (t ∈ topic <$> events)
            then set_add h (registered w t) else registered w t)
  ∧ captured_topic <$> (subscribe_each events h w).1 = topic <$> events
  ∧ ∀ u, u ∈ (subscribe_each events h w).1 →
         captured_handler u = h
         ∧ handlersMap (subscribe_each events h w).2 !! captured_topic u
           = Some (captured_handlers u).
Proof.
  revert w us. induction events as [|ev rest IH]; intros w us Hinv.
  { cbn. split_and!; [done|done|done|]. by intros u ?%elem_of_nil. }
  cbn [subscribe_each]. unfold perikan_on.
  pose proof (inv_on := RegistryFacts.inv_on w us ev h Hinv).
  pose proof (registered_on w us ev h) as Hon.
  pose proof (on_live w ev h) as Hlive.
  assert (captured_handler (on ev h w).1 = h ∧ captured_topic (on ev h w).1 = topic ev)
    as [Hh Ht].
  { unfold on. by destruct (handlersMap w !! topic ev). }
  destruct (on ev h w) as [u0 w1]. cbn [fst snd] in *.
  specialize (IH w1 (u0 :: us) inv_on) as (IHinv & IHreg & IHtop & IHu).
  assert (∀ u, handlersMap w1 !! captured_topic u = Some (captured_handlers u) →
               handlersMap (subscribe_each rest h w1).2 !! captured_topic u
               = Some (captured_handlers u)) as Hkeep.
  { clear. revert w1. induction rest as [|ev' rest IH]; intros w1 u Hl; first done.
    cbn [subscribe_each]. unfold perikan_on.
    pose proof (live_on w1 ev' h u Hl) as Hl'.
    destruct (on ev' h w1) as [u1 w2]. cbn [snd] in Hl'.
    specialize (IH w2 u Hl').
    by destruct (subscribe_each rest h w2). }
  specialize (Hkeep u0 Hlive).
  destruct (subscribe_each rest h w1) as [unbinds w2]. cbn [fst snd] in *.
  split_and!.
  - eapply registry_inv_weaken; last exact IHinv.
    intros u Hin. apply elem_of_app.
    apply elem_of_app in Hin as [[->|Hin]%elem_of_cons|Hin].
    + right. by left.
    + by left.
    + right. by right.
  - intros t. rewrite IHreg, (Hon t Hinv), fmap_cons.
    destruct (decide (t = topic ev)) as [->|Hne].
    + rewrite (bool_decide_eq_true_2 (topic ev = topic ev)) by done.
      rewrite (bool_decide_eq_true_2 (topic ev ∈ topic ev :: _))
        by (apply elem_of_cons; by left).
      case_bool_decide; [apply set_add_idemp|done].
    + rewrite (bool_decide_eq_false_2 (t = topic ev)) by done.
      rewrite (bool_decide_ext (t ∈ topic ev :: (topic <$> rest))
                 (t ∈ topic <$> rest)); first done.
      rewrite elem_of_cons. tauto.
  - by rewrite fmap_cons, IHtop, Ht.
  - intros u [->|Hin]%elem_of_cons; [done|by apply IHu].
Qed.

Lemma unbind_all_spec unbinds h w us :
  registry_inv w us →
  (∀ u, u ∈ unbinds → u ∈ us ∧ in_order u w ∧ captured_handler u = h) →
  ∀ t, registered (unbind_all unbinds w) t
       = if bool_decide (t ∈ captured_topic <$> unbinds)
         then set_delete h (registered w t) else registered w t.
Proof.
  revert w. induction unbinds as [|u rest IH]; intros w Hinv Hall t; first done.
  cbn [unbind_all foldl]. fold (unbind_all rest (unsubscribe u w)).
  destruct (Hall u) as (Hu & Ho & Hh); first by left.
  rewrite IH; cycle 1.
  { by apply RegistryFacts.inv_unsubscribe. }
  { intros u' Hin. destruct (Hall u') as (Hu' & Ho' & Hh'); first by right.
    split_and!; [done| |done]. by eapply in_order_unsubscribe. }
  rewrite (registered_unsubscribe w us u t Hinv Hu Ho), Hh, fmap_cons.
  destruct (decide (t = captured_topic u)) as [->|Hne].
  - rewrite (bool_decide_eq_true_2 (captured_topic u = captured_topic u)) by done.
    rewrite (bool_decide_eq_true_2 (captured_topic u ∈ captured_topic u :: _))
      by (apply elem_of_cons; by left).
    case_bool_decide; [apply set_delete_idemp|done].
  - rewrite (bool_decide_eq_false_2 (t = captured_topic u)) by done.
    rewrite (bool_decide_ext (t ∈ captured_topic u :: (captured_topic <$> rest))
               (t ∈ captured_topic <$> rest)); first done.
    rewrite elem_of_cons. tauto.
Qed.

(** [commit] subscribes the handler it built, a function nobody has seen
    before, after the handlers already present on every topic the flow is
    bound to; the closure it returns takes the handler off all of them
    again, and the handlers of every topic are then what they were before
    the commit. *)
Theorem commit_round_trip (flow : Flow.PerikanFlow) (h : HandlerRef)
    (w : World) (us : list Unsubscribe) :
  reachable w us →
  (∀ t, h ∉ registered w t) →
  (∀ t, registered (commit flow h w).2 t
        = if bool_decide (t ∈ topic <$> Flow.events flow)
          then registered w t ++ [h] else registered w t)
  ∧ (∀ t, registered (unbind_all (commit flow h w).1 (commit flow h w).2) t
          = registered w t).
Proof.
  intros Hinv%RegistryFacts.reachable_inv Hfresh. unfold commit.
  destruct (subscribe_each_spec (Flow.events flow) h w us Hinv)
    as (Hinv1 & Hreg & Htop & Hu).
  split.
  - intros t. rewrite Hreg. case_bool_decide; last done.
    unfold set_add. by rewrite bool_decide_eq_false_2.
  - intros t.
    rewrite (unbind_all_spec _ h _ _ Hinv1); cycle 1.
    { intros u Hin. destruct (Hu u Hin) as [Hh Hl].
      split_and!; [apply elem_of_app; by left|by left|done]. }
    rewrite Htop, Hreg. case_bool_decide; last done.
    by apply set_delete_add.
Qed.

(** After a commit, an envelope of a bound definition that passes
    validation and the worker filter is handed to the handlers that were
    registered on its topic before, and then to the handler of the flow. *)
Theorem commit_then_emit (handler_code : HandlerRef → JSValue → World → CallResult * World)
    (flow : Flow.PerikanFlow) (h : HandlerRef) (w : World) (us : list Unsubscribe)
    (bus : PerikanLocalBus) (ev : PerikanEvent) (data : JSValue) :
  reachable w us →
  (∀ t, h ∉ registered w t) →
  ev ∈ Flow.events flow →
  validate ev data = true →
  accepts (get_prop data "to") (workerId bus) = Some true →
  (emit handler_code bus ev data (commit flow h w).2).1.2.*1
  = registered w (topic ev) ++ [h].
Proof.
  intros Hinv%RegistryFacts.reachable_inv Hfresh Hev Hv Ha.
  rewrite EmitFacts.emit_delivered by done. unfold commit.
  destruct (subscribe_each_spec (Flow.events flow) h w us Hinv) as (_ & -> & _).
  rewrite bool_decide_eq_true_2 by (by apply list_elem_of_fmap_2).
  unfold set_add. by rewrite bool_decide_eq_false_2.
Qed.

(** The handler of the first subscriber subscribes once more. *)
Lemma on_subscribes_once_witness :
  reachable one_subscriber.2 [one_subscriber.1]
  ∧ registered (on TestEvent 0%nat one_subscriber.2).2 "test.topic" = [0%nat].
Proof.
  assert (reachable one_subscriber.2 [one_subscriber.1]) as Hr.
  { apply (reach_on world1 [] TestEvent 0%nat), reach_new. reflexivity. }
  split; first exact Hr.
  exact (on_subscribes_once one_subscriber.2 [one_subscriber.1] TestEvent 0%nat Hr
           "test.topic").
Defined.

(** Two subscribers; the closure of the first one is called. *)
Lemma unsubscribe_removes_handler_witness :
  reachable two_subscribers.2 [two_subscribers.1; one_subscriber.1]
  ∧ registered (unsubscribe one_subscriber.1 two_subscribers.2) "test.topic"
    = [1%nat].
Proof.
  assert (reachable two_subscribers.2 [two_subscribers.1; one_subscriber.1]) as Hr.
  { apply (reach_on one_subscriber.2 [one_subscriber.1] TestEvent 1%nat).
    apply (reach_on world1 [] TestEvent 0%nat), reach_new. reflexivity. }
  split; first exact Hr.
  refine (proj1 (unsubscribe_removes_handler two_subscribers.2 _ one_subscriber.1
                   Hr _ _) "test.topic").
  - apply elem_of_cons. right. apply elem_of_cons. by left.
  - vm_compute. reflexivity.
Defined.

(** The test flow committed on a bus without handlers, then unbound. *)
Lemma commit_round_trip_witness :
  registered (commit test_flow 0%nat world1).2 "test.topic" = [0%nat]
  ∧ registered (unbind_all (commit test_flow 0%nat world1).1
                  (commit test_flow 0%nat world1).2) "test.topic" = [].
Proof.
  assert (reachable world1 []) as Hr by (apply reach_new; reflexivity).
  assert (∀ t, 0%nat ∉ registered world1 t) as Hfresh.
  { intros t. unfold registered. cbn. rewrite lookup_empty. apply not_elem_of_nil. }
  destruct (commit_round_trip test_flow 0%nat world1 [] Hr Hfresh) as [Hc Hu].
  split; [exact (Hc "test.topic")|exact (Hu "test.topic")].
Defined.

(** The commit test of the suite: the flow is committed, an envelope of
    its event is emitted, and the handler of the flow is called. *)
Lemma commit_then_emit_witness :
  (emit test_handlers bus1 TestEvent envelope1 (commit test_flow 0%nat world1).2).1.2.*1
  = registered world1 (topic TestEvent) ++ [0%nat].
Proof.
  apply (commit_then_emit test_handlers test_flow 0%nat world1 [] bus1 TestEvent
           envelope1).
  - apply reach_new. reflexivity.
  - intros t. unfold registered. cbn. rewrite lookup_empty. apply not_elem_of_nil.
  - apply list_elem_of_here.
  - vm_compute. reflexivity.
  - vm_compute. reflexivity.
Defined.

End SubscriptionFacts.

(* ===================================================================== *)
(** * Properties of the pipeline: filters, handlers and escaping errors *)
(* ===================================================================== *)

Module StepFacts.
Import Flow.

(** A step added with [handle] runs the function and awaits it, and its
    result is thrown away: [false] does not stop the pipeline and an
    object is not merged into the context. A throw or a rejection of the
    function still ends the run. *)
Theorem handle_discards_result (fn : PipeFn) (flow : PerikanFlow) :
  ∃ step, pipeFn (handle fn flow) = pipeFn flow ++ [step]
    ∧ ∀ rest i ctx w,
        run_pipes (step :: rest) i ctx w
        = let '(r, w1) := fn ctx w in
          match await_call r with
          | Normal _ =>
              let '(e, log, w2) := run_pipes rest (S i) ctx w1 in
              (e, StepRan i ctx :: log, w2)
          | Thrown err => (Failed ctx err, [StepRan i ctx], w1)
          | Hangs => (Stalled, [StepRan i ctx], w1)
          end.
Proof.
  eexists. split; first reflexivity.
  intros rest i ctx w. cbn [run_pipes].
  destruct (fn ctx w) as [r w1].
  destruct r as [v|[t v|t e|]|e]; reflexivity.
Qed.

(** A step added with [filter] stops the pipeline when the predicate
    returns a falsy value and lets it continue, with the context as it
    was, on a truthy one. A predicate that returns a promise never stops
    the pipeline and is not awaited; a predicate that throws ends the run
    like a failing step. *)
Theorem filter_stops_on_falsy (pred : PipeFn) (flow : PerikanFlow) :
  ∃ step, pipeFn (filter pred flow) = pipeFn flow ++ [step]
    ∧ ∀ rest i ctx w,
        run_pipes (step :: rest) i ctx w
        = let '(r, w1) := pred ctx w in
          let continue :=
            let '(e, log, w2) := run_pipes rest (S i) ctx w1 in
            (e, StepRan i ctx :: log, w2) in
          match r with
          | Returned v => if truthy v then continue
                          else (Stopped ctx, [StepRan i ctx], w1)
          | ReturnedPromise _ => continue
          | Threw err => (Failed ctx err, [StepRan i ctx], w1)
          end.
Proof.
  eexists. split; first reflexivity.
  intros rest i ctx w. cbn [run_pipes].
  destruct (pred ctx w) as [r w1].
  destruct r as [v|p|e]; [|reflexivity..].
  by destruct (truthy v).
Qed.

(** The promise of a built handler rejects in two cases only: the
    envelope is [undefined] or [null], so that no context can be made and
    no step runs, or a step failed and the error handler registered with
    [catch] failed in turn. The failure of a step alone never reaches the
    caller. *)
Theorem build_rejects_only_from_catch (flow : PerikanFlow) (data : JSValue)
    (w : World) (e : Exn) :
  (build flow data w).1.1 = Thrown e →
  (nullish data = true ∧ e = TypeError ∧ (build flow data w).1.2 = [])
  ∨ (∃ fn ctx err w2,
       catchFn flow = Some fn
       ∧ last (build flow data w).1.2 = Some (CatchRan ctx err)
       ∧ await_call (fn ctx err w2).1 = Thrown e).
Proof.
  unfold build, createFlowContext, bind, nextId.
  destruct (SnowFlake.nextId _ _) as [[[id sf1] clock1]|]; last done.
  destruct (nullish data) eqn:Hn; cbn.
  { intros [= <-]. by left. }
  destruct (run_pipes _ _ _ _) as [[[ctx|ctx|ctx err|] log] w2]; [done..| |done].
  destruct (catchFn flow) as [fn|]; last done.
  destruct (fn ctx err w2) as [r w3] eqn:Hfn. cbn.
  destruct (await_call r) as [v|e'|] eqn:Hr; [done| |done].
  intros [= <-]. right. exists fn, ctx, err, w2.
  split_and!; [done|apply last_snoc|by rewrite Hfn].
Qed.

(** The failing step of the test suite, with an error handler that throws
    the error again: the promise of the built handler rejects with it. *)
Lemma build_rejects_only_from_catch_witness :
  (build rethrowing_flow value10 world1).1.1 = Thrown (Error_ "test error")
  ∧ ((nullish value10 = true ∧ Error_ "test error" = TypeError
      ∧ (build rethrowing_flow value10 world1).1.2 = [])
     ∨ (∃ fn ctx err w2,
          catchFn rethrowing_flow = Some fn
          ∧ last (build rethrowing_flow value10 world1).1.2 = Some (CatchRan ctx err)
          ∧ await_call (fn ctx err w2).1 = Thrown (Error_ "test error"))).
Proof.
  assert ((build rethrowing_flow value10 world1).1.1 = Thrown (Error_ "test error"))
    as H by (vm_compute; reflexivity).
  split; first exact H.
  exact (build_rejects_only_from_catch rethrowing_flow value10 world1 _ H).
Defined.

End StepFacts.
